(** * ThriveBot retrieval pipeline: chunker, vector store, retriever

    A shallow embedding of [app/ingestion/chunker.py],
    [app/retrieval/vector_store.py] and [app/retrieval/retriever.py],
    followed by the properties of the retrieval pipeline.

    Conventions.
    - Python [int] is [Z]; [len] is [Z.of_nat (length _)].
    - Python [str] is [string]; one [ascii] stands for one character.
    - Python exceptions are the [Raise] case of the [py] monad.
    - numpy / FAISS scalars are real numbers [R]: arithmetic is exact,
      rounding and overflow of 32-bit floats are outside the model.
    - dictionaries used as records are records; dictionaries used as maps
      and the file system are [gmap]s. *)

From Stdlib Require Import ZArith List String Ascii Lia Reals Lra Bool.
From Stdlib Require Import DecimalString DecimalZ Sorting.Sorted Sorting.Permutation.
From stdpp Require Import gmap strings.
Import ListNotations.

Local Open Scope Z_scope.

(** ** Python results and exceptions *)

Module Py.

Inductive exn : Type :=
| ValueError (msg : string)
| AssertionError
| KeyError (key : string)
| RetryError
| RuntimeError (msg : string).

Inductive py (A : Type) : Type :=
| Return (a : A)
| Raise (e : exn).
Arguments Return {A} a.
Arguments Raise {A} e.

Definition bind {A B : Type} (m : py A) (k : A -> py B) : py B :=
  match m with
  | Return a => k a
  | Raise e => Raise e
  end.

(** [try: body except Exception as e: handler e] *)
Definition try_except {A : Type} (body : py A) (handler : exn -> py A) : py A :=
  match body with
  | Return a => Return a
  | Raise e => handler e
  end.

(** [len(x)] *)
Definition len {A : Type} (l : list A) : Z := Z.of_nat (length l).

(** [l[start:]] with Python's treatment of a negative or too large
    start: a negative start counts from the end and is clamped at 0. *)
Definition slice_start (start n : Z) : nat :=
  Z.to_nat (if start <? 0 then Z.max (start + n) 0 else Z.min start n).

Definition slice_from {A : Type} (start : Z) (l : list A) : list A :=
  skipn (slice_start start (len l)) l.

End Py.

(** [x ← m; k] runs [m] and, unless it raised, continues with [k]. *)
#[export] Instance py_bind : MBind Py.py := fun _ _ k m => Py.bind m k.
#[export] Instance py_ret : MRet Py.py := fun _ a => Py.Return a.

(** ** Python strings *)

Module Str.

Definition chars (s : string) : list ascii := list_ascii_of_string s.
Definition of_chars (l : list ascii) : string := string_of_list_ascii l.

Definition len (s : string) : Z := Z.of_nat (String.length s).

Definition nl : ascii := ascii_of_nat 10.
Definition newline : string := String nl EmptyString.

(** [str.isspace] on the characters below U+0100. *)
Definition is_space (c : ascii) : bool :=
  let n := nat_of_ascii c in
  ((9 <=? n)%nat && (n <=? 13)%nat) || ((28 <=? n)%nat && (n <=? 32)%nat)
  || (n =? 133)%nat || (n =? 160)%nat.

Fixpoint lstrip_chars (l : list ascii) : list ascii :=
  match l with
  | c :: l' => if is_space c then lstrip_chars l' else l
  | [] => []
  end.

Definition strip_chars (l : list ascii) : list ascii :=
  rev (lstrip_chars (rev (lstrip_chars l))).

(** [s.strip()] *)
Definition strip (s : string) : string := of_chars (strip_chars (chars s)).

(** truth value of a string: non-empty *)
Definition truthy (s : string) : bool :=
  match s with EmptyString => false | String _ _ => true end.

(** [sep.join(parts)] *)
Fixpoint join (sep : string) (parts : list string) : string :=
  match parts with
  | [] => EmptyString
  | [p] => p
  | p :: rest => (p ++ sep ++ join sep rest)%string
  end.

(** [s[start:]] *)
Definition slice_from (start : Z) (s : string) : string :=
  of_chars (Py.slice_from start (chars s)).

(** [str(n)] for an integer *)
Definition of_Z (n : Z) : string := NilEmpty.string_of_int (Z.to_int n).

(** [t] is a tail (suffix) of [s], [pre] a head (prefix) of [s]. *)
Definition is_tail_of (t s : string) : Prop := exists pre, s = (pre ++ t)%string.
Definition begins_with (s pre : string) : Prop := exists post, s = (pre ++ post)%string.

End Str.

(** ** [app/ingestion/chunker.py] *)

Module Chunker.
Import Py.

Inductive meta_value : Type :=
| MInt (n : Z)
| MStr (s : string).

(** [TextChunk] dataclass *)
Record TextChunk : Type := {
  content : string;
  source : string;
  chunk_index : Z;
  metadata : gmap string meta_value
}.

(** [TextChunk.id] *)
Definition id (c : TextChunk) : string :=
  (source c ++ "::chunk_" ++ Str.of_Z (chunk_index c))%string.

(** [chunk.chunk_index = i] *)
Definition set_chunk_index (c : TextChunk) (i : Z) : TextChunk :=
  {| content := content c; source := source c; chunk_index := i;
     metadata := metadata c |}.

(** The [tiktoken] encoding, when the import succeeds. *)
Record Tokenizer : Type := {
  encode : string -> list Z;
  decode : list Z -> string
}.

(** *** Regular-expression splits

    [re.split(r'\n\s*\n', text)]: a separator starts at a newline and
    extends, through white space only, to the last newline of that
    white-space run; a newline whose run holds no second newline is
    ordinary text.  [cur] is the piece being read (reversed); [pend] is
    [Some (m, tl)] after a newline: [m] tells whether a second newline
    was met, [tl] is the white space read since the last newline
    (reversed). *)
Fixpoint split_blank_lines (cs : list ascii) (cur : list ascii)
    (pend : option (bool * list ascii)) : list (list ascii) :=
  match cs with
  | [] =>
      match pend with
      | None => [rev cur]
      | Some (true, tl) => [rev cur; rev tl]
      | Some (false, tl) => [rev (tl ++ Str.nl :: cur)]
      end
  | c :: cs' =>
      match pend with
      | None =>
          if Ascii.eqb c Str.nl then split_blank_lines cs' cur (Some (false, []))
          else split_blank_lines cs' (c :: cur) None
      | Some (m, tl) =>
          if Ascii.eqb c Str.nl then split_blank_lines cs' cur (Some (true, []))
          else if Str.is_space c then split_blank_lines cs' cur (Some (m, c :: tl))
          else if m then rev cur :: split_blank_lines cs' (c :: tl) None
          else split_blank_lines cs' (c :: tl ++ Str.nl :: cur) None
      end
  end.

Definition is_sentence_end (c : ascii) : bool :=
  Ascii.eqb c "."%char || Ascii.eqb c "!"%char || Ascii.eqb c "?"%char.

(** [re.split(r'(?<=[.!?])\s+', text)]: a separator is a whole
    white-space run that directly follows one of [. ! ?].  [in_sep]
    holds while such a run is being consumed. *)
Fixpoint split_after_punct (cs : list ascii) (cur : list ascii)
    (in_sep : bool) : list (list ascii) :=
  match cs with
  | [] => if in_sep then [rev cur; []] else [rev cur]
  | c :: cs' =>
      if in_sep then
        if Str.is_space c then split_after_punct cs' cur true
        else rev cur :: split_after_punct cs' [c] false
      else
        match cur with
        | p :: _ =>
            if Str.is_space c && is_sentence_end p
            then split_after_punct cs' cur true
            else split_after_punct cs' (c :: cur) false
        | [] => split_after_punct cs' [c] false
        end
  end.

(** [[p.strip() for p in pieces if p.strip()]] *)
Definition strip_nonblank (pieces : list (list ascii)) : list string :=
  map (fun p => Str.strip (Str.of_chars p))
      (filter (fun p => Str.truthy (Str.strip (Str.of_chars p))) pieces).

Definition _split_into_paragraphs (text : string) : list string :=
  strip_nonblank (split_blank_lines (Str.chars text) [] None).

Definition _split_into_sentences (text : string) : list string :=
  strip_nonblank (split_after_punct (Str.chars text) [] false).

Section WithChunker.

(** Fields of a [TextChunker]; [tokenizer] is what the lazy property
    yields: the [tiktoken] encoding, or [None] when it is not
    installed. *)
Variable chunk_size : Z.
Variable chunk_overlap : Z.
Variable tokenizer : option Tokenizer.

Definition count_tokens (text : string) : Z :=
  match tokenizer with
  | Some t => len (encode t text)
  | None => Str.len text / 4
  end.

Definition _create_chunk (text_parts : list string) (source : string)
    (chunk_index : Z) (metadata : gmap string meta_value) : TextChunk :=
  let content := Str.join " " text_parts in
  {| content := content;
     source := source;
     chunk_index := chunk_index;
     metadata := <["token_count" := MInt (count_tokens content)]> metadata |}.

Definition _get_overlap_text (chunk_parts : list string) : string :=
  match chunk_parts with
  | [] => ""
  | _ =>
      let full_text := Str.join " " chunk_parts in
      match tokenizer with
      | Some t =>
          let tokens := encode t full_text in
          if len tokens <=? chunk_overlap then full_text
          else decode t (slice_from (- chunk_overlap) tokens)
      | None =>
          let chars := chunk_overlap * 4 in
          if Str.len full_text >? chars
          then Str.slice_from (- chars) full_text
          else full_text
      end
  end.

(** State of the two accumulation loops: the chunks emitted so far,
    the parts of the chunk being built, and its running token count. *)
Record acc : Type := {
  chunks : list TextChunk;
  current_chunk : list string;
  current_tokens : Z
}.

Definition nonempty {A : Type} (l : list A) : bool :=
  match l with [] => false | _ :: _ => true end.

(** One iteration of the loop of [_split_large_paragraph]. *)
Definition sentence_step (source : string) (start_index : Z)
    (metadata : gmap string meta_value) (a : acc) (sentence : string) : acc :=
  let sentence_tokens := count_tokens sentence in
  if current_tokens a + sentence_tokens >? chunk_size then
    let chunks' :=
      if nonempty (current_chunk a)
      then chunks a ++ [_create_chunk (current_chunk a) source
                          (start_index + len (chunks a)) metadata]
      else chunks a in
    {| chunks := chunks'; current_chunk := [sentence];
       current_tokens := sentence_tokens |}
  else
    {| chunks := chunks a; current_chunk := current_chunk a ++ [sentence];
       current_tokens := current_tokens a + sentence_tokens |}.

Definition _split_large_paragraph (paragraph source : string)
    (start_index : Z) (metadata : gmap string meta_value) : list TextChunk :=
  let sentences := _split_into_sentences paragraph in
  let a := fold_left (sentence_step source start_index metadata) sentences
             {| chunks := []; current_chunk := []; current_tokens := 0 |} in
  if nonempty (current_chunk a)
  then chunks a ++ [_create_chunk (current_chunk a) source
                      (start_index + len (chunks a)) metadata]
  else chunks a.

(** [for chunk in sentence_chunks: chunk.chunk_index = len(chunks);
    chunks.append(chunk)] *)
Definition append_reindexed (chunks : list TextChunk)
    (sentence_chunks : list TextChunk) : list TextChunk :=
  fold_left (fun cs c => cs ++ [set_chunk_index c (len cs)]) sentence_chunks chunks.

(** One iteration of the paragraph loop of [chunk_text]. *)
Definition paragraph_step (source : string)
    (metadata : gmap string meta_value) (a : acc) (para : string) : acc :=
  let para_tokens := count_tokens para in
  if para_tokens >? chunk_size then
    let a1 :=
      if nonempty (current_chunk a)
      then {| chunks := chunks a ++ [_create_chunk (current_chunk a) source
                                       (len (chunks a)) metadata];
              current_chunk := []; current_tokens := 0 |}
      else a in
    let sentence_chunks :=
      _split_large_paragraph para source (len (chunks a1)) metadata in
    {| chunks := append_reindexed (chunks a1) sentence_chunks;
       current_chunk := current_chunk a1;
       current_tokens := current_tokens a1 |}
  else if current_tokens a + para_tokens >? chunk_size then
    let chunks' :=
      if nonempty (current_chunk a)
      then chunks a ++ [_create_chunk (current_chunk a) source
                          (len (chunks a)) metadata]
      else chunks a in
    let overlap_text := _get_overlap_text (current_chunk a) in
    let current_chunk' :=
      if Str.truthy overlap_text then [overlap_text; para] else [para] in
    {| chunks := chunks'; current_chunk := current_chunk';
       current_tokens := count_tokens (Str.join " " current_chunk') |}
  else
    {| chunks := chunks a; current_chunk := current_chunk a ++ [para];
       current_tokens := current_tokens a + para_tokens |}.

(** The loop of [chunk_text] over a list of paragraphs, with the
    final flush. *)
Definition chunk_paragraphs (paragraphs : list string) (source : string)
    (metadata : gmap string meta_value) : list TextChunk :=
  let a := fold_left (paragraph_step source metadata) paragraphs
             {| chunks := []; current_chunk := []; current_tokens := 0 |} in
  if nonempty (current_chunk a)
  then chunks a ++ [_create_chunk (current_chunk a) source
                      (len (chunks a)) metadata]
  else chunks a.

(** [metadata = None] is the default argument. *)
Definition chunk_text (text source : string)
    (metadata : option (gmap string meta_value)) : list TextChunk :=
  if negb (Str.truthy text) || negb (Str.truthy (Str.strip text)) then []
  else
    let metadata := default ∅ metadata in
    chunk_paragraphs (_split_into_paragraphs text) source metadata.

End WithChunker.

End Chunker.

(** ** [app/retrieval/vector_store.py] *)

Module VectorStore.
Import Py.

(** A stored document: a dictionary read with [.get] and defaults. *)
Record document : Type := {
  doc_content : option string;
  doc_source : option string;
  doc_chunk_id : option string;
  doc_metadata : option (gmap string Chunker.meta_value)
}.

(** *** numpy rows

    The rows are float32 arrays, as the embedder builds them.  A
    component is a finite float32 taken as the real number it
    denotes.  Of float32 arithmetic the model keeps the range: a sum
    of squares above the largest float32 is [inf], and a finite
    number divided by [inf] is 0.  Rounding is left out. *)

Definition vec : Type := list R.

Fixpoint dot (a b : vec) : R :=
  match a, b with
  | x :: a', y :: b' => (x * y + dot a' b')%R
  | _, _ => 0%R
  end.

(** The largest finite float32, [(2 - 2^-23) * 2^127]. *)
Definition f32_max : R := 340282346638528859811704183484516925440%R.

(** A float32 result: a number or, after overflow, [inf]. *)
Inductive f32 : Type :=
| Finite (x : R)
| Inf.

(** [np.linalg.norm(row)]: the square root of the sum of the squared
    components; the squares are not negative, so the sum overflows
    as soon as one square does. *)
Definition linalg_norm (v : vec) : f32 :=
  if Rlt_dec f32_max (dot v v) then Inf else Finite (sqrt (dot v v)).

Definition norm_floor : R := 1e-10%R.

(** [np.maximum(norm, floor)] *)
Definition maximum (norm : f32) (floor : R) : f32 :=
  match norm with
  | Finite n => Finite (Rmax n floor)
  | Inf => Inf
  end.

(** [x / norm] *)
Definition divide (x : R) (norm : f32) : R :=
  match norm with
  | Finite n => (x / n)%R
  | Inf => 0%R
  end.

(** One row of [embeddings / np.maximum(norms, 1e-10)]. *)
Definition normalize_row (v : vec) : vec :=
  let n := maximum (linalg_norm v) norm_floor in
  map (fun x => divide x n) v.

Definition _normalize (embeddings : list vec) : list vec :=
  map normalize_row embeddings.

(** *** The similarity-search engine

    Modelled from the spec: [faiss.IndexFlatIP] is a library outside
    the repository; section 4.2 and the non-goals of the spec describe
    it as exact inner-product search over a flat store, results sorted
    by score descending, ties broken by insertion order.  The Python
    wrapper rejects rows whose length is not the index dimension and a
    non-positive [k]. *)
Record IndexFlatIP : Type := {
  d : Z;
  xb : list vec
}.

Definition ntotal (idx : IndexFlatIP) : Z := len (xb idx).

Definition new_index (dim : Z) : IndexFlatIP := {| d := dim; xb := [] |}.

Definition has_dimension (dim : Z) (x : list vec) : bool :=
  forallb (fun row => len row =? dim) x.

Definition index_add (idx : IndexFlatIP) (x : list vec) : py IndexFlatIP :=
  if has_dimension (d idx) x
  then Return {| d := d idx; xb := xb idx ++ x |}
  else Raise AssertionError.

(** A (score, label) pair ranks before another when its score is
    higher, or equal with a smaller label. *)
Definition ranks_before (a b : R * Z) : bool :=
  if Rlt_dec (fst b) (fst a) then true
  else if Rlt_dec (fst a) (fst b) then false
  else snd a <=? snd b.

Fixpoint insert_ranked (a : R * Z) (l : list (R * Z)) : list (R * Z) :=
  match l with
  | [] => [a]
  | b :: l' => if ranks_before a b then a :: l else b :: insert_ranked a l'
  end.

Fixpoint rank (l : list (R * Z)) : list (R * Z) :=
  match l with
  | [] => []
  | a :: l' => insert_ranked a (rank l')
  end.

(** Every stored vector with its inner product against [q] and its
    label, the position at which it was inserted. *)
Definition label_scores (q : vec) (vectors : list vec) : list (R * Z) :=
  combine (map (dot q) vectors) (map Z.of_nat (seq 0 (length vectors))).

(** Places that no stored vector fills carry label [-1]. *)
Definition no_result : R * Z :=
  ((-340282346638528859811704183484516925440)%R, -1).

Definition search_row (idx : IndexFlatIP) (k : Z) (q : vec) : list (R * Z) :=
  let ranked := rank (label_scores q (xb idx)) in
  firstn (Z.to_nat k) ranked ++ repeat no_result (Z.to_nat k - length ranked).

(** [scores, indices = index.search(x, k)]: one row per query row. *)
Definition index_search (idx : IndexFlatIP) (x : list vec) (k : Z)
    : py (list (list R) * list (list Z)) :=
  if has_dimension (d idx) x && (0 <? k)
  then Return (map (fun q => map fst (search_row idx k q)) x,
               map (fun q => map snd (search_row idx k q)) x)
  else Raise AssertionError.

(** *** Persisted artifacts

    [faiss.write_index] / [faiss.read_index] and [pickle.dump] /
    [pickle.load] store and return the value itself; a file of another
    kind makes the reader raise. *)
Inductive artifact : Type :=
| FaissFile (idx : IndexFlatIP)
| PickleFile (docs : list document)
| OtherFile (bytes : string).

Definition starts_with_slash (s : string) : bool :=
  match s with
  | String c _ => Ascii.eqb c "/"%char
  | EmptyString => false
  end.

(** [store_path / file] *)
Definition path_join (dir file : string) : string :=
  if starts_with_slash file then file else (dir ++ "/" ++ file)%string.

Definition read_index (a : artifact) : py IndexFlatIP :=
  match a with
  | FaissFile idx => Return idx
  | _ => Raise (RuntimeError "read_index")
  end.

Definition pickle_load (a : artifact) : py (list document) :=
  match a with
  | PickleFile docs => Return docs
  | _ => Raise (RuntimeError "unpickling")
  end.

(** *** [FAISSVectorStore] *)

Record FAISSVectorStore : Type := {
  dimension : Z;
  store_path : string;
  index : IndexFlatIP;
  documents : list document
}.

Definition with_index (st : FAISSVectorStore) (idx : IndexFlatIP) : FAISSVectorStore :=
  {| dimension := dimension st; store_path := store_path st;
     index := idx; documents := documents st |}.

Definition with_documents (st : FAISSVectorStore) (docs : list document) : FAISSVectorStore :=
  {| dimension := dimension st; store_path := store_path st;
     index := index st; documents := docs |}.

(** [FAISSVectorStore(dimension, store_path)] with [_initialize_index] *)
Definition init (dimension : Z) (store_path : string) : FAISSVectorStore :=
  {| dimension := dimension; store_path := store_path;
     index := new_index dimension; documents := [] |}.

(** [add]: the store after the call, or the exception; a raised
    exception leaves the store as it was. *)
Definition add (st : FAISSVectorStore) (embeddings : list vec)
    (docs : list document) : py FAISSVectorStore :=
  if negb (len embeddings =? len docs)
  then Raise (ValueError "Number of embeddings must match number of documents")
  else if len embeddings =? 0 then Return st
  else
    let embeddings := _normalize embeddings in
    idx ← index_add (index st) embeddings;
    Return (with_documents (with_index st idx) (documents st ++ docs)).

(** The loop at the end of [search]: labels in range pick their
    document. *)
Fixpoint collect_results (docs : list document) (hits : list (R * Z))
    : list (document * R) :=
  match hits with
  | [] => []
  | (score, idx) :: hits' =>
      if (idx >=? 0) && (idx <? len docs) then
        match nth_error docs (Z.to_nat idx) with
        | Some doc => (doc, score) :: collect_results docs hits'
        | None => collect_results docs hits'
        end
      else collect_results docs hits'
  end.

Definition search (st : FAISSVectorStore) (query_embedding : vec) (top_k : Z)
    : py (list (document * R)) :=
  if ntotal (index st) =? 0 then Return []
  else
    let query_embedding := _normalize [query_embedding] in
    let top_k := Z.min top_k (ntotal (index st)) in
    '(scores, indices) ← index_search (index st) query_embedding top_k;
    Return (collect_results (documents st)
              (combine (nth 0 scores []) (nth 0 indices []))).

Definition index_path (st : FAISSVectorStore) (name : string) : string :=
  path_join (store_path st) (name ++ ".faiss").

Definition docs_path (st : FAISSVectorStore) (name : string) : string :=
  path_join (store_path st) (name ++ ".pkl").

(** [save]: the file system after the call. *)
Definition save (st : FAISSVectorStore) (name : string)
    (fs : gmap string artifact) : gmap string artifact :=
  <[docs_path st name := PickleFile (documents st)]>
    (<[index_path st name := FaissFile (index st)]> fs).

(** [load]: the returned flag and the store after the call.  When
    reading the index succeeds and unpickling fails, the index has
    already been replaced. *)
Definition load (st : FAISSVectorStore) (name : string)
    (fs : gmap string artifact) : bool * FAISSVectorStore :=
  match fs !! index_path st name, fs !! docs_path st name with
  | Some fi, Some fd =>
      match read_index fi with
      | Return idx =>
          match pickle_load fd with
          | Return docs => (true, with_documents (with_index st idx) docs)
          | Raise _ => (false, with_index st idx)
          end
      | Raise _ => (false, st)
      end
  | _, _ => (false, st)
  end.

Definition clear (st : FAISSVectorStore) : FAISSVectorStore :=
  with_documents (with_index st (new_index (dimension st))) [].

Definition size (st : FAISSVectorStore) : Z := len (documents st).

End VectorStore.

(** ** [app/retrieval/retriever.py] *)

Module Retriever.
Import Py.

(** A retrieved result: the dictionary built by [retrieve] and read by
    [format_context], which indexes ["content"] and reads ["source"]
    and ["score"] with defaults. *)
Record result : Type := {
  content : string;
  source : option string;
  score : option R;
  metadata : option (gmap string Chunker.meta_value)
}.

(** [embedder] is [GeminiEmbedder.embed_query] behind its retry
    decorator: the embedding, or the exception left when the three
    attempts are used up. *)
Record RAGRetriever : Type := {
  embedder : string -> py VectorStore.vec;
  vector_store : VectorStore.FAISSVectorStore;
  top_k : Z;
  score_threshold : R
}.

(** [x >= y] on scores *)
Definition score_ge (x y : R) : bool :=
  if Rge_dec x y then true else false.

(** [not query or not query.strip()] *)
Definition blank (query : string) : bool :=
  negb (Str.truthy query) || negb (Str.truthy (Str.strip query)).

(** [top_k or self.top_k] *)
Definition choose_k (r : RAGRetriever) (k : option Z) : Z :=
  match k with
  | Some n => if n =? 0 then top_k r else n
  | None => top_k r
  end.

Definition format_result (doc : VectorStore.document) (s : R) : result :=
  {| content := default ""%string (VectorStore.doc_content doc);
     source := Some (default "unknown"%string (VectorStore.doc_source doc));
     score := Some s;
     metadata := Some (default ∅ (VectorStore.doc_metadata doc)) |}.

(** The filtering loop of [retrieve]. *)
Fixpoint filter_results (threshold : R) (results : list (VectorStore.document * R))
    : list result :=
  match results with
  | [] => []
  | (doc, s) :: results' =>
      if score_ge s threshold
      then format_result doc s :: filter_results threshold results'
      else filter_results threshold results'
  end.

Definition retrieve (r : RAGRetriever) (query : string) (k : option Z)
    : py (list result) :=
  if blank query then Return []
  else
    let k := choose_k r k in
    try_except
      (query_embedding ← embedder r query;
       results ← VectorStore.search (vector_store r) query_embedding k;
       Return (filter_results (score_threshold r) results))
      (fun _ => Return []).

Definition no_information : string :=
  "No relevant information found in the knowledge base.".

Definition separator : string :=
  (Str.newline ++ "---" ++ Str.newline)%string.

Section WithFormat.

(** [format(score, '.2f')] *)
Variable format_2f : R -> string.

Definition context_piece (i : Z) (r : result) : string :=
  let source := default "Unknown"%string (source r) in
  let score := default 0%R (score r) in
  (Str.newline ++ "[Source " ++ Str.of_Z i ++ ": " ++ source ++ "]"
   ++ Str.newline ++ "Relevance: " ++ format_2f score
   ++ Str.newline ++ "Content: " ++ content r ++ Str.newline)%string.

(** [len(context_piece) // 4] *)
Definition piece_tokens (piece : string) : Z := Str.len piece / 4.

(** The loop of [format_context] from position [i] on;
    [break] ends it with the parts gathered so far. *)
Fixpoint format_loop (max_tokens : Z) (i : Z) (results : list result)
    (context_parts : list string) (current_length : Z) : list string :=
  match results with
  | [] => context_parts
  | r :: results' =>
      let piece := context_piece i r in
      if current_length + piece_tokens piece >? max_tokens
      then context_parts
      else format_loop max_tokens (i + 1) results'
             (context_parts ++ [piece]) (current_length + piece_tokens piece)
  end.

Definition included_parts (results : list result) (max_tokens : Z) : list string :=
  format_loop max_tokens 1 results [] 0.

Definition format_context (results : list result) (max_tokens : Z) : string :=
  match results with
  | [] => no_information
  | _ => Str.join separator (included_parts results max_tokens)
  end.

Definition retrieve_and_format (r : RAGRetriever) (query : string)
    (k : option Z) (max_tokens : Z) : py (string * list result) :=
  results ← retrieve r query k;
  Return (format_context results max_tokens, results).

End WithFormat.

End Retriever.

Module ChunkerSpec.
Import Py Chunker.

(** The chunk indices are [0, 1, ..., n-1], in this order. *)
Definition dense (cs : list TextChunk) : Prop :=
  map chunk_index cs = map Z.of_nat (seq 0 (length cs)).

(** Identity of a chunk: source and index. *)
Definition identity (c : TextChunk) : string * Z := (source c, chunk_index c).

(** The document of the zero-overlap example: two paragraphs of two
    tokens each under the heuristic counter. *)
Definition two_paragraphs : string :=
  ("aaaaaaaa" ++ Str.newline ++ Str.newline ++ "bbbbbbbb")%string.

(** The text of [test_basic_chunking]: three paragraphs, the second
    and third indented. *)
Definition three_paragraphs : string :=
  ("This is the first paragraph with some content."
   ++ Str.newline ++ Str.newline
   ++ "        This is the second paragraph with different content."
   ++ Str.newline ++ Str.newline
   ++ "        This is the third paragraph with more information.")%string.

(** The overlap text the chunker takes from a flushed chunk whose
    text is [s]. *)
Definition overlap_of (chunk_overlap : Z) (tokenizer : option Tokenizer)
    (s : string) : string :=
  _get_overlap_text chunk_overlap tokenizer [s].

(** Every chunk after the first begins with the overlap text of the
    chunk before it. *)
Fixpoint chained (ov : string -> string) (cs : list TextChunk) : Prop :=
  match cs with
  | c :: rest =>
      match rest with
      | c' :: _ => Str.begins_with (content c') (ov (content c)) /\ chained ov rest
      | [] => True
      end
  | [] => True
  end.

(** What the loops keep true of the chunks emitted so far. *)
Definition well_indexed (src : string) (cs : list TextChunk) : Prop :=
  dense cs /\ Forall (fun c => source c = src) cs.

(** What the paragraph loop keeps true when no paragraph is
    oversized: the emitted chunks are chained, and the accumulator
    already begins with the overlap of the last emitted chunk. *)
Definition overlap_invariant (chunk_overlap : Z)
    (tokenizer : option Tokenizer) (a : acc) : Prop :=
  chained (overlap_of chunk_overlap tokenizer) (chunks a) /\
  (forall c, last (chunks a) = Some c ->
     current_chunk a <> [] /\
     Str.begins_with (Str.join " " (current_chunk a))
       (overlap_of chunk_overlap tokenizer (content c))).

(** The last [n] characters of [s]. *)
Definition last_chars (n : nat) (s : string) : string :=
  Str.of_chars (skipn (String.length s - n) (Str.chars s)).
End ChunkerSpec.

Module VectorStoreSpec.
Import Py VectorStore.

(** The L2 norm of a row. *)
Definition l2_norm (v : vec) : R := sqrt (dot v v).

(** The rows that normalization brings to unit length: the norm
    reaches the floor and the sum of squares is a finite float32. *)
Definition in_range (v : vec) : Prop :=
  (norm_floor <= l2_norm v)%R /\ (dot v v <= f32_max)%R.

(** [v] divided by its L2 norm: the L2-normalized vector. *)
Definition l2_normalized (v : vec) : vec :=
  map (fun x => (x / l2_norm v)%R) v.

(** The divisor of a normalization is not zero. *)
Definition nonzero (norm : f32) : Prop :=
  match norm with
  | Finite n => (0 < n)%R
  | Inf => True
  end.

(** The vector and payload lists match 1:1. *)
Definition consistent (st : FAISSVectorStore) : Prop :=
  length (xb (index st)) = length (documents st).

(** [h] is the result for the entry inserted at position [i]: its
    payload, scored by the inner product of the L2-normalized query
    with the stored vector. *)
Definition cosine_hit (st : FAISSVectorStore) (q : vec) (i : nat)
    (h : document * R) : Prop :=
  nth_error (documents st) i = Some (fst h) /\
  exists v, nth_error (xb (index st)) i = Some v /\
            snd h = dot (l2_normalized q) v.

(** [h] is the result for the entry inserted at position [i]: its
    payload, scored by the inner product of the query, as [search]
    normalizes it, with the stored vector. *)
Definition hit_of (st : FAISSVectorStore) (q : vec) (i : nat)
    (h : document * R) : Prop :=
  nth_error (documents st) i = Some (fst h) /\
  exists v, nth_error (xb (index st)) i = Some v /\
            snd h = dot (normalize_row q) v.

(** Order of two labelled results: higher score first, and at equal
    scores the earlier inserted first. *)
Definition ranked_before (a b : nat * (document * R)) : Prop :=
  (snd (snd b) < snd (snd a))%R \/
  (snd (snd a) = snd (snd b) /\ (fst a < fst b)%nat).

(** Every stored vector has unit norm, up to [1e-5]. *)
Definition unit_norms (st : FAISSVectorStore) : Prop :=
  Forall (fun v => (Rabs (l2_norm v - 1) <= 1e-5)%R) (xb (index st)).

(** A sequence of [add] calls. *)
Fixpoint add_all (st : FAISSVectorStore)
    (calls : list (list vec * list document)) : py FAISSVectorStore :=
  match calls with
  | [] => Return st
  | (embeddings, docs) :: calls' =>
      st' ← add st embeddings docs; add_all st' calls'
  end.

Definition outranks (a b : R * Z) : Prop :=
  (fst b < fst a)%R \/ (fst a = fst b /\ snd a <= snd b).

Definition strictly_outranks (a b : R * Z) : Prop :=
  (fst b < fst a)%R \/ (fst a = fst b /\ snd a < snd b).

(** [collect_results], keeping the position of each hit. *)
Fixpoint label_results (docs : list document) (hits : list (R * Z))
    : list (nat * (document * R)) :=
  match hits with
  | [] => []
  | (score, idx) :: hits' =>
      if (idx >=? 0) && (idx <? len docs) then
        match nth_error docs (Z.to_nat idx) with
        | Some doc => (Z.to_nat idx, (doc, score)) :: label_results docs hits'
        | None => label_results docs hits'
        end
      else label_results docs hits'
  end.

Definition doc_cats : document :=
  {| doc_content := Some "Document about cats"%string;
     doc_source := Some "doc1.txt"%string;
     doc_chunk_id := None; doc_metadata := None |}.

Definition doc_dogs : document :=
  {| doc_content := Some "Document about dogs"%string;
     doc_source := Some "doc2.txt"%string;
     doc_chunk_id := None; doc_metadata := None |}.

Definition doc_birds : document :=
  {| doc_content := Some "Document about birds"%string;
     doc_source := Some "doc3.txt"%string;
     doc_chunk_id := None; doc_metadata := None |}.

Definition animal_vectors : list vec :=
  [[1; 0; 0; 0]; [0; 1; 0; 0]; [0; 0; 1; 0]]%R.

Definition animals : FAISSVectorStore :=
  {| dimension := 4; store_path := "data/test_store";
     index := {| d := 4; xb := animal_vectors |};
     documents := [doc_cats; doc_dogs; doc_birds] |}.

Definition cat_query : vec := [1; 0.1; 0; 0]%R.

End VectorStoreSpec.

Module RetrieverSpec.
Import Py Retriever VectorStore VectorStoreSpec.
Section WithFormat.
Variable format_2f : R -> string.

(** All candidate blocks, numbered from [i]. *)
Fixpoint pieces_from (i : Z) (results : list result) : list string :=
  match results with
  | [] => []
  | r :: results' => context_piece format_2f i r :: pieces_from (i + 1) results'
  end.

Definition blocks (results : list result) : list string := pieces_from 1 results.

(** Sum of the estimated token costs. *)
Definition cost (parts : list string) : Z :=
  fold_right (fun p n => piece_tokens p + n) 0 parts.
End WithFormat.

(** A concrete rendering of scores and two concrete results. *)
Definition two_decimals (_ : R) : string := "0.50".

Definition result_a : result :=
  {| content := "alpha"; source := Some "a.txt"%string; score := None; metadata := None |}.

Definition result_b : result :=
  {| content := "beta"; source := None; score := None; metadata := None |}.





(** The same retriever with an embedder that has used up its retries. *)
Definition failing_retriever : RAGRetriever :=
  {| embedder := fun _ => Raise RetryError;
     vector_store := animals;
     top_k := 2;
     score_threshold := 0.3%R |}.

End RetrieverSpec.

Module ChunkerMoreSpec.
Import Py Chunker ChunkerSpec.

(** Some character of [l] is not white space. *)
Definition has_text (l : list ascii) : Prop :=
  Exists (fun c => Str.is_space c = false) l.

(** [sub] occurs in [s]. *)
Definition contains (s sub : string) : Prop :=
  exists pre post, s = (pre ++ sub ++ post)%string.

(** Sum of the token counts of the parts of an accumulator. *)
Definition parts_tokens (tokenizer : option Tokenizer) (parts : list string) : Z :=
  fold_right (fun p n => count_tokens tokenizer p + n) 0 parts.

(** A chunk as [_create_chunk] builds it from parts that are not
    empty: its text is not empty, and its metadata is the caller's
    with [token_count] set to the token count of the text. *)
Definition good_chunk (tokenizer : option Tokenizer)
    (md : gmap string meta_value) (c : TextChunk) : Prop :=
  Str.truthy (content c) = true /\
  metadata c = <["token_count" := MInt (count_tokens tokenizer (content c))]> md.

(** A chunk made of parts whose token counts fit the chunk size, or
    of one part only. *)
Definition fits_or_single (chunk_size : Z) (tokenizer : option Tokenizer)
    (pool : list string) (c : TextChunk) : Prop :=
  exists parts : list string,
    parts <> [] /\ incl parts pool /\
    content c = Str.join " " parts /\
    (length parts = 1%nat \/ parts_tokens tokenizer parts <= chunk_size).

(** Every paragraph read so far that fits the chunk size is in an
    emitted chunk or in the accumulator. *)
Definition covered (chunk_size : Z) (tokenizer : option Tokenizer)
    (a : acc) (done : list string) : Prop :=
  forall p, In p done -> count_tokens tokenizer p <= chunk_size ->
    Exists (fun c => contains (content c) p) (chunks a) \/
    In p (current_chunk a).

(** What the sentence loop keeps true: the emitted chunks fit or are
    single sentences, the accumulator holds sentences of the pool, the
    running count is the sum over the accumulator, and the accumulator
    fits unless it holds at most one sentence. *)
Definition sentence_invariant (chunk_size : Z) (tokenizer : option Tokenizer)
    (pool : list string) (a : acc) : Prop :=
  Forall (fits_or_single chunk_size tokenizer pool) (chunks a) /\
  incl (current_chunk a) pool /\
  current_tokens a = parts_tokens tokenizer (current_chunk a) /\
  ((length (current_chunk a) <= 1)%nat \/
   parts_tokens tokenizer (current_chunk a) <= chunk_size).
End ChunkerMoreSpec.

Module VectorStoreMoreSpec.
Import Py VectorStore VectorStoreSpec.

(** No stored vector is longer than a unit vector. *)
Definition norms_at_most_one (st : FAISSVectorStore) : Prop :=
  Forall (fun v => (l2_norm v <= 1)%R) (xb (index st)).

(** Number of payloads passed to a sequence of [add] calls. *)
Definition total_added (calls : list (list vec * list document)) : Z :=
  fold_right (fun call n => len (snd call) + n) 0 calls.

(** The payloads passed to a sequence of [add] calls, in order. *)
Definition all_added (calls : list (list vec * list document)) : list document :=
  flat_map snd calls.

End VectorStoreMoreSpec.

Module RetrieverMoreSpec.
Import Py Retriever VectorStore.


(** Characters of the parts, without separators. *)
Definition chars_of (parts : list string) : Z :=
  fold_right (fun p n => Str.len p + n) 0 parts.
End RetrieverMoreSpec.

Module ChunkerFacts.
Import Py Chunker ChunkerSpec.

Lemma dense_nil : dense [].
Proof. reflexivity. Qed.

Lemma dense_snoc (cs : list TextChunk) (c : TextChunk) :
  dense cs -> chunk_index c = len cs -> dense (cs ++ [c]).
Proof.
  unfold dense, len. intros Hd Hc.
  rewrite map_app, length_app, Nat.add_1_r, seq_S, map_app, Hd. simpl.
  by rewrite Hc.
Qed.

Lemma dense_NoDup (cs : list TextChunk) : dense cs -> List.NoDup (map chunk_index cs).
Proof.
  unfold dense. intros ->.
  apply Finite.Injective_map_NoDup; [|apply seq_NoDup].
  intros x y. apply Nat2Z.inj.
Qed.

Lemma fold_left_invariant {A B : Type} (P : A -> Prop) (f : A -> B -> A)
    (l : list B) (a : A) :
  (forall a b, P a -> P (f a b)) -> P a -> P (fold_left f l a).
Proof. intros Hf. revert a. induction l as [|b l IH]; simpl; auto. Qed.

Lemma string_app_assoc (a b c : string) :
  ((a ++ b) ++ c = a ++ (b ++ c))%string.
Proof.
  induction a as [|x a IH]; [reflexivity|].
  change (String x ((a ++ b) ++ c) = String x (a ++ (b ++ c)))%string.
  by rewrite IH.
Qed.

Section WithChunker.
Variable chunk_size : Z.
Variable chunk_overlap : Z.
Variable tokenizer : option Tokenizer.

Lemma create_chunk_index parts src i md : chunk_index (_create_chunk tokenizer parts src i md) = i.
Proof. reflexivity. Qed.

Lemma create_chunk_source parts src i md : source (_create_chunk tokenizer parts src i md) = src.
Proof. reflexivity. Qed.

Lemma well_indexed_snoc src cs c :
  well_indexed src cs -> chunk_index c = len cs -> source c = src ->
  well_indexed src (cs ++ [c]).
Proof.
  intros [Hd Hs] Hi Hc. split; [by apply dense_snoc|].
  apply Forall_app. split; [exact Hs | by constructor].
Qed.

Lemma sentence_step_sources src start md a sentence :
  Forall (fun c => source c = src) (chunks a) ->
  Forall (fun c => source c = src)
    (chunks (sentence_step chunk_size tokenizer src start md a sentence)).
Proof.
  intros H. unfold sentence_step.
  destruct (_ >? _); simpl; [|exact H].
  destruct (nonempty (current_chunk a)); [|exact H].
  apply Forall_app. split; [exact H | by constructor].
Qed.

Lemma split_large_paragraph_sources para src start md :
  Forall (fun c => source c = src)
    (_split_large_paragraph chunk_size tokenizer para src start md).
Proof.
  unfold _split_large_paragraph.
  set (a := fold_left _ _ _).
  assert (Ha : Forall (fun c => source c = src) (chunks a)).
  { apply (fold_left_invariant
             (fun a => Forall (fun c => source c = src) (chunks a))).
    - intros a' s. apply sentence_step_sources.
    - constructor. }
  destruct (nonempty (current_chunk a)); [|exact Ha].
  apply Forall_app. split; [exact Ha | by constructor].
Qed.

Lemma append_reindexed_well_indexed src (scs : list TextChunk) :
  forall cs, well_indexed src cs ->
  Forall (fun c => source c = src) scs ->
  well_indexed src (append_reindexed cs scs).
Proof.
  unfold append_reindexed.
  induction scs as [|c scs IH]; intros cs Hcs Hscs; simpl; [exact Hcs|].
  inversion Hscs; subst. apply IH; [|assumption].
  by apply well_indexed_snoc.
Qed.

Lemma paragraph_step_well_indexed src md a para :
  well_indexed src (chunks a) ->
  well_indexed src
    (chunks (paragraph_step chunk_size chunk_overlap tokenizer src md a para)).
Proof.
  intros H. unfold paragraph_step.
  destruct (count_tokens tokenizer para >? chunk_size).
  - simpl. apply append_reindexed_well_indexed;
      [|apply split_large_paragraph_sources].
    destruct (nonempty (current_chunk a)); [|exact H].
    simpl. by apply well_indexed_snoc.
  - destruct (_ >? _); simpl; [|exact H].
    destruct (nonempty (current_chunk a)); [|exact H].
    by apply well_indexed_snoc.
Qed.

Lemma chunk_paragraphs_well_indexed paragraphs src md :
  well_indexed src
    (chunk_paragraphs chunk_size chunk_overlap tokenizer paragraphs src md).
Proof.
  unfold chunk_paragraphs. set (a := fold_left _ _ _).
  assert (Ha : well_indexed src (chunks a)).
  { apply (fold_left_invariant (fun a => well_indexed src (chunks a))).
    - intros a' p. apply paragraph_step_well_indexed.
    - split; [apply dense_nil | constructor]. }
  destruct (nonempty (current_chunk a)); [|exact Ha].
  by apply well_indexed_snoc.
Qed.

Lemma chunk_text_well_indexed text src md :
  well_indexed src (chunk_text chunk_size chunk_overlap tokenizer text src md).
Proof.
  unfold chunk_text. destruct (_ || _).
  - split; [apply dense_nil | constructor].
  - apply chunk_paragraphs_well_indexed.
Qed.

Lemma identities_NoDup (cs : list TextChunk) :
  dense cs -> List.NoDup (map identity cs).
Proof.
  intros Hd. apply (NoDup_map_inv snd). rewrite map_map. simpl.
  by apply dense_NoDup.
Qed.

Lemma of_Z_inj (a b : Z) : Str.of_Z a = Str.of_Z b -> a = b.
Proof.
  unfold Str.of_Z. intros H. apply to_int_inj.
  apply (f_equal NilEmpty.int_of_string) in H.
  rewrite !NilEmpty.isi in H. congruence.
Qed.

Lemma ids_NoDup src (cs : list TextChunk) :
  well_indexed src cs -> List.NoDup (map id cs).
Proof.
  intros [Hd Hs].
  assert (Hid : map id cs
                = map (fun i => (src ++ "::chunk_" ++ Str.of_Z i)%string)
                      (map chunk_index cs)).
  { rewrite map_map. apply map_ext_Forall.
    eapply List.Forall_impl; [|exact Hs]. simpl. intros c Hc.
    unfold id. by rewrite Hc. }
  rewrite Hid. apply Finite.Injective_map_NoDup; [|by apply dense_NoDup].
  intros i j Hij. apply String.app_inj, String.app_inj in Hij.
  by apply of_Z_inj.
Qed.

(** C9.  For every input text the chunks of one source carry the
    indices [0, 1, ..., n-1] in order, without gap or repeat, also
    through the sentence-splitting path; every chunk carries the
    source, and the identities (source, index) are pairwise
    distinct, and so are the [id] strings built from them. *)
Theorem chunk_indices_dense (text src : string)
    (md : option (gmap string meta_value)) :
  let cs := chunk_text chunk_size chunk_overlap tokenizer text src md in
  map chunk_index cs = map Z.of_nat (seq 0 (length cs)) /\
  Forall (fun c => source c = src) cs /\
  List.NoDup (map identity cs) /\
  List.NoDup (map id cs).
Proof.
  intros cs. pose proof (chunk_text_well_indexed text src md) as Hw.
  destruct Hw as [Hd Hs].
  split; [exact Hd|]. split; [exact Hs|].
  split; [by apply identities_NoDup | by apply (ids_NoDup src)].
Qed.

(** *** Overlap *)

Lemma overlap_of_parts (parts : list string) :
  parts <> [] ->
  _get_overlap_text chunk_overlap tokenizer parts
    = overlap_of chunk_overlap tokenizer (Str.join " " parts).
Proof. destruct parts; [congruence | reflexivity]. Qed.

Lemma join_snoc (parts : list string) (p : string) :
  parts <> [] ->
  Str.join " " (parts ++ [p]) = (Str.join " " parts ++ " " ++ p)%string.
Proof.
  induction parts as [|a parts IH]; [congruence|]. intros _.
  destruct parts as [|b parts]; [reflexivity|].
  change (Str.join " " ((a :: b :: parts) ++ [p]))
    with (a ++ " " ++ Str.join " " ((b :: parts) ++ [p]))%string.
  rewrite IH by discriminate.
  change (Str.join " " (a :: b :: parts))
    with (a ++ " " ++ Str.join " " (b :: parts))%string.
  rewrite !string_app_assoc. reflexivity.
Qed.

Lemma begins_with_app (s pre post : string) :
  Str.begins_with s pre -> Str.begins_with (s ++ post) pre.
Proof.
  intros [x ->]. exists (x ++ post)%string. by rewrite string_app_assoc.
Qed.

Lemma chained_snoc ov (cs : list TextChunk) (c : TextChunk) :
  chained ov cs ->
  (forall c0, last cs = Some c0 -> Str.begins_with (content c) (ov (content c0))) ->
  chained ov (cs ++ [c]).
Proof.
  induction cs as [|a cs IH]; intros Hc Hl; [exact I|].
  destruct cs as [|b cs].
  - simpl. split; [|exact I]. by apply Hl.
  - destruct Hc as [Hab Hc]. split; [exact Hab|].
    apply IH; [exact Hc|]. intros c0 H0. apply Hl.
    by rewrite last_cons_cons.
Qed.

Lemma nonempty_true {A : Type} (l : list A) : nonempty l = true -> l <> [].
Proof. destruct l; [discriminate | discriminate]. Qed.

Lemma nonempty_false {A : Type} (l : list A) : nonempty l = false -> l = [].
Proof. destruct l; [reflexivity | discriminate]. Qed.

Lemma paragraph_step_overlap src md a para :
  count_tokens tokenizer para <= chunk_size ->
  overlap_invariant chunk_overlap tokenizer a ->
  overlap_invariant chunk_overlap tokenizer
    (paragraph_step chunk_size chunk_overlap tokenizer src md a para).
Proof.
  intros Hsize [Hch Hlast]. unfold paragraph_step.
  destruct (Z.gtb_spec (count_tokens tokenizer para) chunk_size); [lia|].
  destruct (_ >? _).
  - destruct (nonempty (current_chunk a)) eqn:Hne.
    + apply nonempty_true in Hne. split; simpl.
      * apply chained_snoc; [exact Hch|]. intros c0 H0.
        destruct (Hlast c0 H0) as [_ Hb]. exact Hb.
      * intros c. rewrite last_snoc. intros [= <-]. simpl.
        rewrite (overlap_of_parts _ Hne).
        set (o := overlap_of _ _ _).
        destruct (Str.truthy o) eqn:Ho.
        -- split; [discriminate|]. exists (" " ++ para)%string. reflexivity.
        -- split; [discriminate|]. destruct o; [|discriminate].
           exists para. reflexivity.
    + apply nonempty_false in Hne. split; simpl; [exact Hch|].
      intros c Hc. destruct (Hlast c Hc) as [Hcc _]. congruence.
  - split; simpl; [exact Hch|]. intros c Hc.
    destruct (Hlast c Hc) as [Hcc Hb]. split.
    + intros Happ. apply app_eq_nil in Happ as [? _]. contradiction.
    + rewrite join_snoc by exact Hcc. by apply begins_with_app.
Qed.

Lemma fold_paragraphs_overlap src md (paragraphs : list string) :
  forall a,
  Forall (fun p => count_tokens tokenizer p <= chunk_size) paragraphs ->
  overlap_invariant chunk_overlap tokenizer a ->
  overlap_invariant chunk_overlap tokenizer
    (fold_left (paragraph_step chunk_size chunk_overlap tokenizer src md)
       paragraphs a).
Proof.
  induction paragraphs as [|p ps IH]; intros a Hps Ha; simpl; [exact Ha|].
  inversion Hps; subst. apply IH; [assumption|].
  by apply paragraph_step_overlap.
Qed.

(** When no paragraph exceeds [chunk_size], every chunk after the
    first begins with the overlap text of the chunk before it. *)
Lemma chunk_paragraphs_chained (paragraphs : list string) src md :
  Forall (fun p => count_tokens tokenizer p <= chunk_size) paragraphs ->
  chained (overlap_of chunk_overlap tokenizer)
    (chunk_paragraphs chunk_size chunk_overlap tokenizer paragraphs src md).
Proof.
  intros Hps. unfold chunk_paragraphs. set (a := fold_left _ _ _).
  assert (Ha : overlap_invariant chunk_overlap tokenizer a).
  { apply fold_paragraphs_overlap; [exact Hps|].
    split; [exact I | discriminate]. }
  destruct Ha as [Hch Hlast].
  destruct (nonempty (current_chunk a)); [|exact Hch].
  apply chained_snoc; [exact Hch|]. intros c0 H0.
  destruct (Hlast c0 H0) as [_ Hb]. exact Hb.
Qed.

End WithChunker.

(** *** The heuristic overlap: a tail of the flushed text *)

Lemma of_chars_app (a b : list ascii) :
  Str.of_chars (a ++ b) = (Str.of_chars a ++ Str.of_chars b)%string.
Proof. induction a as [|c a IH]; simpl; [reflexivity | by rewrite IH]. Qed.

Lemma chars_length (s : string) : length (Str.chars s) = String.length s.
Proof. induction s as [|c s IH]; simpl; [reflexivity | by rewrite IH]. Qed.

Lemma slice_from_tail (start : Z) (s : string) :
  Str.is_tail_of (Str.slice_from start s) s.
Proof.
  unfold Str.slice_from, slice_from.
  exists (Str.of_chars (firstn (slice_start start (len (Str.chars s))) (Str.chars s))).
  rewrite <- of_chars_app, firstn_skipn.
  symmetry. apply string_of_list_ascii_of_string.
Qed.

(** Under the heuristic counter the overlap is always a tail of the
    flushed text. *)
Lemma overlap_of_tail (chunk_overlap : Z) (s : string) :
  Str.is_tail_of (overlap_of chunk_overlap None s) s.
Proof.
  unfold overlap_of, _get_overlap_text. simpl.
  destruct (_ >? _); [apply slice_from_tail | by exists ""%string].
Qed.

(** With [chunk_overlap >= 1] it is the last [4 * chunk_overlap]
    characters, or the whole text when that is not longer. *)
Lemma overlap_of_positive (chunk_overlap : Z) (s : string) :
  1 <= chunk_overlap ->
  overlap_of chunk_overlap None s =
    if Str.len s >? chunk_overlap * 4
    then last_chars (Z.to_nat (chunk_overlap * 4)) s
    else s.
Proof.
  intros Hco. unfold overlap_of, _get_overlap_text. simpl.
  destruct (Z.gtb_spec (Str.len s) (chunk_overlap * 4)) as [Hgt|]; [|reflexivity].
  unfold Str.slice_from, slice_from, slice_start, last_chars, len.
  rewrite chars_length. unfold Str.len in Hgt.
  destruct (Z.ltb_spec (- (chunk_overlap * 4)) 0); [|lia].
  do 2 f_equal. lia.
Qed.

(** With [chunk_overlap = 0] it is the whole flushed text. *)
Lemma overlap_of_zero (parts : list string) :
  _get_overlap_text 0 None parts = Str.join " " parts.
Proof.
  unfold _get_overlap_text. destruct parts as [|p parts]; [reflexivity|].
  set (full := Str.join " " (p :: parts)).
  destruct (Str.len full >? 0 * 4); [|reflexivity].
  unfold Str.slice_from, slice_from, slice_start. simpl.
  rewrite Z.min_l by (unfold len; lia). simpl.
  apply string_of_list_ascii_of_string.
Qed.

(** The same with a tokenizer whose [decode] undoes [encode]: the
    slice [tokens[-0:]] holds every token. *)
Lemma overlap_of_zero_tokenizer (t : Tokenizer) (parts : list string) :
  (forall s, decode t (encode t s) = s) ->
  _get_overlap_text 0 (Some t) parts = Str.join " " parts.
Proof.
  intros Hround. unfold _get_overlap_text.
  destruct parts as [|p parts]; [reflexivity|].
  set (full := Str.join " " (p :: parts)).
  destruct (len (encode t full) <=? 0); [reflexivity|].
  unfold slice_from, slice_start. simpl.
  rewrite Z.min_l by (unfold len; lia). simpl. apply Hround.
Qed.

(** Spec scenario 3: the empty text has no chunk. *)
Example chunk_text_empty (chunk_size chunk_overlap : Z)
    (tokenizer : option Tokenizer) (src : string) :
  chunk_text chunk_size chunk_overlap tokenizer "" src None = [].
Proof. reflexivity. Qed.

(** [test_basic_chunking]: with [chunk_size = 50] the three short
    paragraphs fit one chunk. *)
Example basic_chunking :
  _split_into_paragraphs three_paragraphs
    = ["This is the first paragraph with some content.";
       "This is the second paragraph with different content.";
       "This is the third paragraph with more information."]%string /\
  map (fun c => (id c, content c))
      (chunk_text 50 10 None three_paragraphs "test.txt" None)
    = [("test.txt::chunk_0",
        "This is the first paragraph with some content. This is the second paragraph with different content. This is the third paragraph with more information.")]%string.
Proof. split; reflexivity. Qed.

(** With [chunk_overlap = 1] the same document overlaps by four
    characters. *)
Example overlap_one_two_paragraphs :
  map content (chunk_text 2 1 None two_paragraphs "doc.txt" None)
    = ["aaaaaaaa"; "aaaa bbbbbbbb"]%string.
Proof. reflexivity. Qed.

(** C7, at [chunk_overlap = 0].  The overlap taken from a flushed
    accumulator is its whole text, not its last 0 characters: on a
    document of two paragraphs with [chunk_size = 2] the second chunk
    repeats the first chunk in full before the new paragraph. *)
Theorem overlap_zero_repeats_chunk :
  (forall parts : list string,
      _get_overlap_text 0 None parts = Str.join " " parts) /\
  (forall (t : Tokenizer) (parts : list string),
      (forall s, decode t (encode t s) = s) ->
      _get_overlap_text 0 (Some t) parts = Str.join " " parts) /\
  _get_overlap_text 0 None ["aaaaaaaa"%string] = "aaaaaaaa"%string /\
  map content (chunk_text 2 0 None two_paragraphs "doc.txt" None)
    = ["aaaaaaaa"; "aaaaaaaa bbbbbbbb"]%string.
Proof.
  split; [exact overlap_of_zero|].
  split; [exact overlap_of_zero_tokenizer|]. split; reflexivity.
Qed.

End ChunkerFacts.

Module VectorStoreFacts.
Import Py VectorStore VectorStoreSpec.

(** *** Ranking *)

Lemma ranks_before_true (a b : R * Z) : ranks_before a b = true -> outranks a b.
Proof.
  unfold ranks_before, outranks.
  destruct (Rlt_dec (fst b) (fst a)); [auto|].
  destruct (Rlt_dec (fst a) (fst b)); [discriminate|].
  intros H%Z.leb_le. right. split; [lra | exact H].
Qed.

Lemma ranks_before_false (a b : R * Z) : ranks_before a b = false -> outranks b a.
Proof.
  unfold ranks_before, outranks.
  destruct (Rlt_dec (fst b) (fst a)); [discriminate|].
  destruct (Rlt_dec (fst a) (fst b)); [auto|].
  intros H%Z.leb_gt. right. split; [lra | lia].
Qed.

Lemma outranks_trans (a b c : R * Z) : outranks a b -> outranks b c -> outranks a c.
Proof.
  unfold outranks.
  intros [H1|[H1 H1']] [H2|[H2 H2']]; [left; lra ..|right; split; [lra|lia]].
Qed.

Lemma insert_ranked_perm (a : R * Z) (l : list (R * Z)) :
  Permutation (insert_ranked a l) (a :: l).
Proof.
  induction l as [|b l IH]; simpl; [reflexivity|].
  destruct (ranks_before a b); [reflexivity|].
  rewrite IH. apply perm_swap.
Qed.

Lemma rank_perm (l : list (R * Z)) : Permutation (rank l) l.
Proof.
  induction l as [|a l IH]; simpl; [reflexivity|].
  rewrite insert_ranked_perm. by constructor.
Qed.

Lemma insert_ranked_sorted (a : R * Z) (l : list (R * Z)) :
  StronglySorted outranks l -> StronglySorted outranks (insert_ranked a l).
Proof.
  induction l as [|b l IH]; simpl; intros Hs.
  - repeat constructor.
  - inversion Hs as [|? ? Hs' Hb]; subst.
    destruct (ranks_before a b) eqn:Hab.
    + apply ranks_before_true in Hab. constructor; [exact Hs|].
      constructor; [exact Hab|].
      eapply List.Forall_impl; [|exact Hb]. intros c Hc. eapply outranks_trans; eauto.
    + apply ranks_before_false in Hab. constructor; [auto|].
      apply List.Forall_forall. intros c Hc.
      apply (Permutation_in _ (insert_ranked_perm a l)) in Hc.
      destruct Hc as [<-|Hc]; [exact Hab|].
      rewrite List.Forall_forall in Hb. auto.
Qed.

Lemma rank_sorted (l : list (R * Z)) : StronglySorted outranks (rank l).
Proof.
  induction l as [|a l IH]; simpl; [constructor|].
  by apply insert_ranked_sorted.
Qed.

Lemma sorted_strict (l : list (R * Z)) :
  StronglySorted outranks l -> List.NoDup (map snd l) -> StronglySorted strictly_outranks l.
Proof.
  induction 1 as [|a l Hs IH Ha]; intros Hnd; [constructor|].
  simpl in Hnd. apply List.NoDup_cons_iff in Hnd as [Hnotin Hnd].
  constructor; [auto|].
  apply List.Forall_forall. intros b Hb.
  rewrite List.Forall_forall in Ha. destruct (Ha b Hb) as [Hlt|[Heq Hle]]; [by left|].
  right. split; [exact Heq|].
  assert (snd a <> snd b) by (intros E; apply Hnotin; rewrite E; by apply in_map).
  lia.
Qed.

Lemma firstn_incl {A : Type} (n : nat) (l : list A) (x : A) :
  In x (firstn n l) -> In x l.
Proof.
  revert n. induction l as [|a l IH]; intros [|n]; simpl; try tauto.
  intros [->|H]; eauto.
Qed.

Lemma firstn_sorted {A : Type} (P : A -> A -> Prop) (n : nat) (l : list A) :
  StronglySorted P l -> StronglySorted P (firstn n l).
Proof.
  revert n. induction l as [|a l IH]; intros n Hs; [by rewrite firstn_nil|].
  destruct n as [|n]; [constructor|]. simpl.
  inversion Hs as [|? ? Hs' Ha]; subst. constructor; [auto|].
  apply List.Forall_forall. intros b Hb. rewrite List.Forall_forall in Ha.
  apply Ha. eapply firstn_incl. exact Hb.
Qed.

(** *** Labelled scores *)

Lemma combine_fst_snd {A B : Type} (l : list (A * B)) :
  combine (map fst l) (map snd l) = l.
Proof. induction l as [|[a b] l IH]; simpl; congruence. Qed.

Lemma labels_from (q : vec) (vectors : list vec) (s : nat) (sc : R) (l : Z) :
  In (sc, l) (combine (map (dot q) vectors)
                      (map Z.of_nat (seq s (length vectors)))) ->
  exists (i : nat) (v : vec),
    l = Z.of_nat (s + i) /\ nth_error vectors i = Some v /\ sc = dot q v.
Proof.
  revert s. induction vectors as [|v vs IH]; intros s; simpl; [tauto|].
  intros [[= <- <-]|H].
  - exists 0%nat, v. rewrite Nat.add_0_r. auto.
  - destruct (IH (S s) H) as (i & w & -> & Hw & ->).
    exists (S i), w. repeat split; [f_equal; lia | exact Hw].
Qed.

Lemma label_scores_In (q : vec) (vectors : list vec) (sc : R) (l : Z) :
  In (sc, l) (label_scores q vectors) ->
  exists (i : nat) (v : vec),
    l = Z.of_nat i /\ nth_error vectors i = Some v /\ sc = dot q v.
Proof. intros H. apply labels_from in H. exact H. Qed.

Lemma label_scores_length (q : vec) (vectors : list vec) :
  length (label_scores q vectors) = length vectors.
Proof.
  unfold label_scores.
  rewrite length_combine, !length_map, length_seq. lia.
Qed.

Lemma label_scores_labels (q : vec) (vectors : list vec) :
  map snd (label_scores q vectors) = map Z.of_nat (seq 0 (length vectors)).
Proof.
  unfold label_scores. generalize 0%nat.
  induction vectors as [|v vs IH]; intros s; simpl; [reflexivity|].
  by rewrite IH.
Qed.

Lemma label_scores_NoDup (q : vec) (vectors : list vec) :
  List.NoDup (map snd (label_scores q vectors)).
Proof.
  rewrite label_scores_labels.
  apply Finite.Injective_map_NoDup; [|apply seq_NoDup].
  intros x y. apply Nat2Z.inj.
Qed.

Lemma ranked_length (q : vec) (vectors : list vec) :
  length (rank (label_scores q vectors)) = length vectors.
Proof.
  rewrite (Permutation_length (rank_perm _)). apply label_scores_length.
Qed.

Lemma ranked_strictly_sorted (q : vec) (vectors : list vec) :
  StronglySorted strictly_outranks (rank (label_scores q vectors)).
Proof.
  apply sorted_strict; [apply rank_sorted|].
  eapply Permutation_NoDup; [|apply label_scores_NoDup].
  apply Permutation_map. symmetry. apply rank_perm.
Qed.

Lemma ranked_In (q : vec) (vectors : list vec) (sc : R) (l : Z) :
  In (sc, l) (rank (label_scores q vectors)) ->
  exists (i : nat) (v : vec),
    l = Z.of_nat i /\ nth_error vectors i = Some v /\ sc = dot q v.
Proof.
  intros H. apply label_scores_In.
  eapply Permutation_in; [apply rank_perm | exact H].
Qed.

(** With [0 <= k <= ntotal] the engine leaves no place unfilled. *)
Lemma search_row_clamped (idx : IndexFlatIP) (k : Z) (q : vec) :
  k <= ntotal idx ->
  search_row idx k q = firstn (Z.to_nat k) (rank (label_scores q (xb idx))).
Proof.
  intros Hk. unfold search_row. rewrite ranked_length.
  unfold ntotal, len in Hk.
  replace (Z.to_nat k - length (xb idx))%nat with 0%nat by lia.
  simpl. apply app_nil_r.
Qed.

Lemma normalize_row_length (v : vec) : length (normalize_row v) = length v.
Proof. unfold normalize_row. apply length_map. Qed.

(** [search] on a non-empty index: one engine call, then the
    collection loop over its only row. *)
Lemma search_nonempty (st : FAISSVectorStore) (q : vec) (k : Z) :
  ntotal (index st) <> 0 ->
  search st q k =
    if (len q =? d (index st)) && (0 <? Z.min k (ntotal (index st)))
    then Return (collect_results (documents st)
                   (firstn (Z.to_nat (Z.min k (ntotal (index st))))
                      (rank (label_scores (normalize_row q) (xb (index st))))))
    else Raise AssertionError.
Proof.
  intros Hn. unfold search. apply Z.eqb_neq in Hn. rewrite Hn.
  unfold index_search, _normalize, has_dimension. simpl.
  unfold len at 1. rewrite normalize_row_length. fold (len q).
  rewrite andb_true_r.
  destruct ((len q =? d (index st)) && (0 <? Z.min k (ntotal (index st)))); [|reflexivity].
  simpl. rewrite combine_fst_snd, search_row_clamped by lia. reflexivity.
Qed.

(** *** The collection loop *)

Lemma label_results_snd (docs : list document) (hits : list (R * Z)) :
  map snd (label_results docs hits) = collect_results docs hits.
Proof.
  induction hits as [|[s l] hits IH]; simpl; [reflexivity|].
  destruct ((l >=? 0) && (l <? len docs)); [|exact IH].
  destruct (nth_error docs (Z.to_nat l)); simpl; congruence.
Qed.

Lemma label_results_In (docs : list document) (hits : list (R * Z))
    (i : nat) (doc : document) (s : R) :
  In (i, (doc, s)) (label_results docs hits) ->
  In (s, Z.of_nat i) hits /\ nth_error docs i = Some doc.
Proof.
  induction hits as [|[s' l] hits IH]; simpl; [tauto|].
  destruct ((l >=? 0) && (l <? len docs)) eqn:Hl; [|intros H; split; [right|]; tauto].
  destruct (nth_error docs (Z.to_nat l)) eqn:Hd; [|intros H; split; [right|]; tauto].
  intros [[= <- <- <-]|H]; [|split; [right|]; tauto].
  apply andb_true_iff in Hl as [Hl _]. apply Z.geb_le in Hl.
  rewrite Z2Nat.id by lia. auto.
Qed.

Lemma label_results_sorted (docs : list document) (hits : list (R * Z)) :
  StronglySorted strictly_outranks hits ->
  StronglySorted ranked_before (label_results docs hits).
Proof.
  induction 1 as [|[s l] hits Hs IH Ha]; simpl; [constructor|].
  destruct ((l >=? 0) && (l <? len docs)) eqn:Hl; [|exact IH].
  destruct (nth_error docs (Z.to_nat l)); [|exact IH].
  constructor; [exact IH|].
  apply List.Forall_forall. intros [i [doc s']] Hin.
  apply label_results_In in Hin as [Hin _].
  rewrite List.Forall_forall in Ha. specialize (Ha _ Hin).
  apply andb_true_iff in Hl as [Hl _]. apply Z.geb_le in Hl.
  unfold strictly_outranks in Ha. unfold ranked_before. simpl in *.
  destruct Ha as [Ha|[Ha Hb]]; [by left | right; split; [exact Ha | lia]].
Qed.

Lemma collect_results_length (docs : list document) (hits : list (R * Z)) :
  Forall (fun h => exists i : nat, snd h = Z.of_nat i /\ (i < length docs)%nat) hits ->
  length (collect_results docs hits) = length hits.
Proof.
  induction 1 as [|[s l] hits (i & Hi & Hlt) _ IH]; simpl; [reflexivity|].
  simpl in Hi. subst l.
  replace ((Z.of_nat i >=? 0) && (Z.of_nat i <? len docs)) with true.
  2:{ symmetry. apply andb_true_iff. unfold len. split; [apply Z.geb_le | apply Z.ltb_lt]; lia. }
  rewrite Nat2Z.id. destruct (nth_error docs i) eqn:Hd; simpl; [congruence|].
  apply nth_error_None in Hd. lia.
Qed.

Lemma map_sorted {A B : Type} (P : A -> A -> Prop) (Q : B -> B -> Prop)
    (f : A -> B) (l : list A) :
  (forall a b, P a b -> Q (f a) (f b)) ->
  StronglySorted P l -> StronglySorted Q (map f l).
Proof.
  intros HPQ. induction 1 as [|a l Hs IH Ha]; simpl; constructor; [exact IH|].
  apply List.Forall_forall. intros b [a' [<- Hin]]%in_map_iff.
  rewrite List.Forall_forall in Ha. auto.
Qed.

(** *** Search *)

Lemma search_empty (st : FAISSVectorStore) (q : vec) (k : Z) :
  ntotal (index st) = 0 -> search st q k = Return [].
Proof. intros H. unfold search. by rewrite H. Qed.

Lemma search_returns (st : FAISSVectorStore) (q : vec) (k : Z) :
  consistent st -> len q = d (index st) -> 1 <= k ->
  exists res, search st q k = Return res /\
              len res = Z.min k (ntotal (index st)).
Proof.
  intros Hc Hq Hk.
  destruct (Z.eq_dec (ntotal (index st)) 0) as [Hn|Hn].
  { exists []. rewrite search_empty by exact Hn. rewrite Hn. split; [reflexivity|].
    unfold len. simpl. lia. }
  rewrite search_nonempty by exact Hn.
  assert (Hpos : 0 < ntotal (index st)) by (unfold ntotal, len in *; lia).
  replace ((len q =? d (index st)) && (0 <? Z.min k (ntotal (index st)))) with true.
  2:{ symmetry. apply andb_true_iff. split; [apply Z.eqb_eq | apply Z.ltb_lt]; lia. }
  eexists. split; [reflexivity|].
  unfold len. rewrite collect_results_length.
  - rewrite length_firstn, ranked_length. unfold ntotal, len in *. lia.
  - apply List.Forall_forall. intros [s l] Hin. apply firstn_incl in Hin.
    apply ranked_In in Hin as (i & v & -> & Hv & _).
    exists i. split; [reflexivity|].
    rewrite <- Hc. apply nth_error_Some. congruence.
Qed.

Lemma search_labelled (st : FAISSVectorStore) (q : vec) (k : Z)
    (res : list (document * R)) :
  search st q k = Return res ->
  exists labelled : list (nat * (document * R)),
    map snd labelled = res /\
    Forall (fun x => hit_of st q (fst x) (snd x)) labelled /\
    StronglySorted ranked_before labelled.
Proof.
  intros Hs.
  destruct (Z.eq_dec (ntotal (index st)) 0) as [Hn|Hn].
  { rewrite search_empty in Hs by exact Hn. injection Hs as <-.
    exists []. repeat split; constructor. }
  rewrite search_nonempty in Hs by exact Hn.
  destruct ((len q =? d (index st)) && (0 <? Z.min k (ntotal (index st))));
    [|discriminate].
  injection Hs as <-.
  set (hits := firstn _ _).
  exists (label_results (documents st) hits). split; [apply label_results_snd|].
  split.
  - apply List.Forall_forall. intros [i [doc s]] Hin.
    apply label_results_In in Hin as [Hin Hdoc].
    apply firstn_incl, ranked_In in Hin as (j & v & Hj & Hv & ->).
    apply Nat2Z.inj in Hj as ->.
    split; [exact Hdoc|]. exists v. auto.
  - apply label_results_sorted, firstn_sorted, ranked_strictly_sorted.
Qed.

Lemma search_sorted (st : FAISSVectorStore) (q : vec) (k : Z)
    (res : list (document * R)) :
  search st q k = Return res ->
  StronglySorted (fun a b : document * R => (snd b <= snd a)%R) res.
Proof.
  intros Hs. destruct (search_labelled st q k res Hs) as (lab & Hmap & _ & Hsort).
  rewrite <- Hmap. eapply map_sorted; [|exact Hsort].
  intros a b [H|[H _]]; lra.
Qed.

(** *** Normalization *)

Lemma dot_self_nonneg (v : vec) : (0 <= dot v v)%R.
Proof. induction v as [|x v IH]; simpl; [lra | nra]. Qed.

Lemma dot_scaled (c : R) (v : vec) :
  c <> 0%R ->
  dot (map (fun x => (x / c)%R) v) (map (fun x => (x / c)%R) v)
    = (dot v v / (c * c))%R.
Proof.
  intros Hc. induction v as [|x v IH]; simpl; [field; exact Hc|].
  rewrite IH. field. exact Hc.
Qed.

Lemma norm_divisor_pos (v : vec) : (0 < Rmax (l2_norm v) norm_floor)%R.
Proof.
  apply Rlt_le_trans with norm_floor; [unfold norm_floor; lra | apply Rmax_r].
Qed.

Lemma l2_norm_scaled (c : R) (v : vec) :
  (0 < c)%R -> l2_norm (map (fun x => (x / c)%R) v) = (l2_norm v / c)%R.
Proof.
  intros Hc. unfold l2_norm. rewrite dot_scaled by lra.
  rewrite sqrt_div_alt by nra. rewrite sqrt_square by lra. reflexivity.
Qed.

(** Within the float32 range the row is divided by its norm or by
    the floor; beyond it, by [inf]. *)
Lemma normalize_row_finite (v : vec) :
  (dot v v <= f32_max)%R ->
  normalize_row v = map (fun x => (x / Rmax (l2_norm v) norm_floor)%R) v.
Proof.
  intros Hv. unfold normalize_row, linalg_norm.
  destruct (Rlt_dec f32_max (dot v v)) as [Hlt|_]; [lra | reflexivity].
Qed.

Lemma normalize_row_overflow (v : vec) :
  (f32_max < dot v v)%R -> normalize_row v = map (fun _ => 0%R) v.
Proof.
  intros Hv. unfold normalize_row, linalg_norm.
  destruct (Rlt_dec f32_max (dot v v)) as [_|Hn]; [reflexivity | lra].
Qed.

Lemma divisor_nonzero (v : vec) : nonzero (maximum (linalg_norm v) norm_floor).
Proof.
  unfold linalg_norm. destruct (Rlt_dec f32_max (dot v v)); simpl; [exact I|].
  apply norm_divisor_pos.
Qed.

Lemma l2_norm_normalize_row (v : vec) :
  (dot v v <= f32_max)%R ->
  l2_norm (normalize_row v) = (l2_norm v / Rmax (l2_norm v) norm_floor)%R.
Proof.
  intros Hv. rewrite normalize_row_finite by exact Hv.
  apply l2_norm_scaled, norm_divisor_pos.
Qed.

Lemma normalize_row_unit (v : vec) :
  in_range v -> l2_norm (normalize_row v) = 1%R.
Proof.
  intros [Hv Hmax]. rewrite l2_norm_normalize_row, Rmax_left by assumption.
  field. unfold norm_floor in Hv. lra.
Qed.

Lemma l2_norm_zero_row (v : vec) : l2_norm (map (fun _ => 0%R) v) = 0%R.
Proof.
  unfold l2_norm. replace (dot _ _) with 0%R; [apply sqrt_0|].
  induction v as [|x v IH]; simpl; [reflexivity|]. rewrite <- IH. ring.
Qed.

(** Within range, normalization is division by the L2 norm. *)
Lemma normalize_row_l2_normalized (v : vec) :
  in_range v -> normalize_row v = l2_normalized v.
Proof.
  intros [Hv Hmax]. rewrite normalize_row_finite by exact Hmax.
  by rewrite Rmax_left by exact Hv.
Qed.

Lemma l2_norm_singleton (x : R) : (0 <= x)%R -> l2_norm [x] = x.
Proof.
  intros Hx. unfold l2_norm. simpl. rewrite Rplus_0_r. by apply sqrt_square.
Qed.

(** *** [add], [clear] and the unit-norm invariant *)

Lemma add_vectors (st st' : FAISSVectorStore) (embeddings : list vec)
    (docs : list document) :
  add st embeddings docs = Return st' ->
  xb (index st') = xb (index st) ++ _normalize embeddings /\
  documents st' = documents st ++ docs /\
  length embeddings = length docs.
Proof.
  unfold add. destruct (len embeddings =? len docs) eqn:Hlen; [|discriminate].
  apply Z.eqb_eq in Hlen. unfold len in Hlen. apply Nat2Z.inj in Hlen.
  simpl. destruct (len embeddings =? 0) eqn:H0.
  - intros [= <-]. apply Z.eqb_eq in H0. unfold len in H0.
    destruct embeddings; [|simpl in H0; lia]. destruct docs; [|discriminate].
    by rewrite !app_nil_r.
  - unfold index_add. destruct (has_dimension _ _); [|discriminate].
    simpl. intros [= <-]. simpl. auto.
Qed.

Lemma add_unit_norms (st st' : FAISSVectorStore) (embeddings : list vec)
    (docs : list document) :
  unit_norms st ->
  Forall in_range embeddings ->
  add st embeddings docs = Return st' ->
  unit_norms st'.
Proof.
  intros Hst Hemb Hadd. apply add_vectors in Hadd as (Hxb & _ & _).
  unfold unit_norms. rewrite Hxb. apply Forall_app. split; [exact Hst|].
  unfold _normalize. rewrite List.Forall_map.
  eapply List.Forall_impl; [|exact Hemb]. simpl. intros v Hv.
  rewrite normalize_row_unit by exact Hv.
  rewrite Rminus_diag, Rabs_R0. lra.
Qed.

(** The 1:1 match of vectors and payloads holds in a new store and is
    kept by [add] and [clear]. *)
Lemma init_consistent (dim : Z) (path : string) : consistent (init dim path).
Proof. reflexivity. Qed.

Lemma clear_consistent (st : FAISSVectorStore) : consistent (clear st).
Proof. reflexivity. Qed.

Lemma add_consistent (st st' : FAISSVectorStore) (embeddings : list vec)
    (docs : list document) :
  consistent st -> add st embeddings docs = Return st' -> consistent st'.
Proof.
  unfold consistent. intros Hc Hadd.
  apply add_vectors in Hadd as (Hxb & Hdocs & Hlen).
  rewrite Hxb, Hdocs, !length_app. unfold _normalize.
  rewrite length_map. lia.
Qed.

Lemma clear_unit_norms (st : FAISSVectorStore) : unit_norms (clear st).
Proof. constructor. Qed.

Lemma init_unit_norms (dim : Z) (path : string) : unit_norms (init dim path).
Proof. constructor. Qed.

Lemma add_all_unit_norms (calls : list (list vec * list document)) :
  forall st st' : FAISSVectorStore,
  unit_norms st ->
  Forall (fun call => Forall in_range (fst call)) calls ->
  add_all st calls = Return st' ->
  unit_norms st'.
Proof.
  induction calls as [|[embeddings docs] calls IH]; intros st st' Hst Hcalls; simpl.
  - by intros [= <-].
  - inversion Hcalls as [|? ? Hcall Hrest]; subst. simpl in Hcall.
    destruct (add st embeddings docs) as [st1|e] eqn:Hadd; [|discriminate].
    simpl. apply IH; [|exact Hrest].
    eapply add_unit_norms; eauto.
Qed.

(** *** Persistence *)

Lemma string_length_app (a b : string) :
  String.length (a ++ b)%string = (String.length a + String.length b)%nat.
Proof. induction a as [|c a IH]; simpl; [reflexivity | by rewrite IH]. Qed.

Lemma starts_with_slash_app (name ext : string) :
  name <> ""%string ->
  starts_with_slash (name ++ ext)%string = starts_with_slash name.
Proof. destruct name; [congruence | reflexivity]. Qed.

(** The two artifacts of a name are different files. *)
Lemma artifact_paths_differ (st : FAISSVectorStore) (name : string) :
  index_path st name <> docs_path st name.
Proof.
  unfold index_path, docs_path, path_join. intros Heq.
  assert (Hs : starts_with_slash (name ++ ".faiss") = starts_with_slash (name ++ ".pkl")).
  { destruct name; reflexivity. }
  rewrite Hs in Heq. apply (f_equal String.length) in Heq.
  destruct (starts_with_slash (name ++ ".pkl"));
    rewrite ?string_length_app in Heq; simpl in Heq; lia.
Qed.

Lemma load_after_save (st fresh : FAISSVectorStore) (name : string)
    (fs : gmap string artifact) :
  store_path fresh = store_path st ->
  load fresh name (save st name fs)
    = (true, with_documents (with_index fresh (index st)) (documents st)).
Proof.
  intros Hpath. unfold load, save.
  assert (Hi : index_path fresh name = index_path st name)
    by (unfold index_path; by rewrite Hpath).
  assert (Hd : docs_path fresh name = docs_path st name)
    by (unfold docs_path; by rewrite Hpath).
  rewrite Hi, Hd.
  rewrite lookup_insert_ne by (apply not_eq_sym, artifact_paths_differ).
  rewrite !lookup_insert_eq. reflexivity.
Qed.

(** *** Ranking a list that is already in order *)

Lemma outranks_ranks_before (a b : R * Z) : outranks a b -> ranks_before a b = true.
Proof.
  unfold outranks, ranks_before. intros [H|[H H']].
  - destruct (Rlt_dec (fst b) (fst a)); [reflexivity | contradiction].
  - destruct (Rlt_dec (fst b) (fst a)); [reflexivity|].
    destruct (Rlt_dec (fst a) (fst b)); [lra|]. by apply Z.leb_le.
Qed.

Lemma rank_of_sorted (l : list (R * Z)) : StronglySorted outranks l -> rank l = l.
Proof.
  induction 1 as [|a l Hs IH Ha]; simpl; [reflexivity|].
  rewrite IH. destruct l as [|b l]; [reflexivity|]. simpl.
  inversion Ha; subst. by rewrite outranks_ranks_before.
Qed.

(** *** A three-entry store (the store of [test_add_and_search]) *)

Lemma animals_nonempty : ntotal (index animals) <> 0.
Proof. unfold ntotal, len. simpl. lia. Qed.

(** A query whose scores against the three entries are already in
    insertion order retrieves cats, then dogs. *)
Lemma animals_search (q : vec) :
  len q = 4 ->
  let q' := normalize_row q in
  (dot q' [0; 1; 0; 0] <= dot q' [1; 0; 0; 0])%R ->
  (dot q' [0; 0; 1; 0] <= dot q' [0; 1; 0; 0])%R ->
  search animals q 2
    = Return [(doc_cats, dot q' [1; 0; 0; 0]%R); (doc_dogs, dot q' [0; 1; 0; 0]%R)].
Proof.
  intros Hq q' H12 H23.
  rewrite search_nonempty by exact animals_nonempty.
  rewrite Hq. replace (Z.min 2 (ntotal (index animals))) with 2
    by (unfold ntotal, len; simpl; lia).
  cbn [andb Z.eqb Z.ltb Z.compare Pos.eqb d index animals xb documents].
  change (label_scores (normalize_row q) animal_vectors)
    with [(dot q' [1; 0; 0; 0]%R, 0); (dot q' [0; 1; 0; 0]%R, 1);
          (dot q' [0; 0; 1; 0]%R, 2)].
  rewrite rank_of_sorted; [reflexivity|].
  assert (Hle : forall x y : R, (y <= x)%R -> forall i j : Z, i <= j ->
                outranks (x, i) (y, j)).
  { intros x y Hxy i j Hij. unfold outranks. simpl.
    destruct (Rle_lt_or_eq_dec _ _ Hxy); [by left | by right]. }
  repeat first [apply SSorted_cons | apply SSorted_nil
               | apply List.Forall_cons | apply List.Forall_nil];
    apply Hle; try lia; try assumption.
  eapply Rle_trans; eassumption.
Qed.

Lemma cat_query_scores :
  let q' := normalize_row cat_query in
  (dot q' [0; 1; 0; 0] < dot q' [1; 0; 0; 0])%R /\
  (dot q' [0; 0; 1; 0] < dot q' [0; 1; 0; 0])%R.
Proof.
  cbv zeta. rewrite normalize_row_finite
    by (unfold f32_max, cat_query; simpl; lra).
  unfold cat_query. simpl.
  pose proof (norm_divisor_pos [1; 0.1; 0; 0]%R) as Hn.
  set (n := Rmax _ _) in *.
  assert (Hi : (0 < / n)%R) by (by apply Rinv_0_lt_compat).
  unfold Rdiv. split; lra.
Qed.

(** Spec scenario 1: query [1, 0.1, 0, 0] with [k = 2] returns cats
    first, with a strictly higher score than dogs. *)
Lemma cat_query_search :
  let q' := normalize_row cat_query in
  search animals cat_query 2
    = Return [(doc_cats, dot q' [1; 0; 0; 0]%R); (doc_dogs, dot q' [0; 1; 0; 0]%R)].
Proof.
  destruct cat_query_scores as [H1 H2].
  apply animals_search; [reflexivity | lra | lra].
Qed.

(** Spec scenario 4: searching a new store returns no result. *)
Example search_new_store (q : vec) (k : Z) :
  search (init 4 "data/test_store") q k = Return [].
Proof. by apply search_empty. Qed.

(** Spec scenario 6: saving the three-entry store, clearing it and
    loading it back restores the three entries. *)
Example save_clear_load (fs : gmap string artifact) :
  load (clear animals) "index" (save animals "index" fs) = (true, animals) /\
  size animals = 3.
Proof.
  split; [|reflexivity]. by rewrite load_after_save.
Qed.

(** [load] reports failure and leaves the store unchanged when an
    artifact is missing. *)
Lemma load_missing (st : FAISSVectorStore) (name : string)
    (fs : gmap string artifact) :
  fs !! index_path st name = None \/ fs !! docs_path st name = None ->
  load st name fs = (false, st).
Proof.
  unfold load. intros [H|H]; rewrite H; [reflexivity|].
  by destruct (fs !! index_path st name).
Qed.

(** A query whose length is not the index dimension is rejected by
    the engine, and [search] raises. *)
Example search_dimension_mismatch :
  search animals [1%R] 2 = Raise AssertionError.
Proof. rewrite search_nonempty by exact animals_nonempty. reflexivity. Qed.

Lemma l2_norm_axis (x : R) : (0 <= x)%R -> l2_norm [x; 0; 0; 0]%R = x.
Proof.
  intros Hx. unfold l2_norm. simpl.
  replace (x * x + (0 * 0 + (0 * 0 + (0 * 0 + 0))))%R with (x * x)%R by ring.
  by apply sqrt_square.
Qed.

Lemma animal_vectors_norms :
  Forall (fun v => l2_norm v = 1%R) animal_vectors.
Proof.
  unfold animal_vectors, l2_norm. repeat constructor; simpl;
    match goal with |- sqrt ?e = _ => replace e with 1%R by ring end;
    apply sqrt_1.
Qed.

Lemma unit_in_range (v : vec) : l2_norm v = 1%R -> in_range v.
Proof.
  intros Hv. split; [rewrite Hv; unfold norm_floor; lra|].
  rewrite <- (sqrt_sqrt (dot v v)) by apply dot_self_nonneg.
  fold (l2_norm v). rewrite Hv. unfold f32_max. lra.
Qed.

Lemma normalize_unit_row (v : vec) : l2_norm v = 1%R -> normalize_row v = v.
Proof.
  intros Hv. rewrite normalize_row_finite by (by apply unit_in_range).
  rewrite Hv, Rmax_left by (unfold norm_floor; lra).
  clear. induction v as [|y v IH]; simpl; [reflexivity|]. by rewrite Rdiv_1_r, IH.
Qed.

(** [test_add_and_search]: adding the three vectors to a new store. *)
Lemma add_animals :
  add (init 4 "data/test_store") animal_vectors [doc_cats; doc_dogs; doc_birds]
    = Return animals.
Proof.
  assert (H : _normalize animal_vectors = animal_vectors).
  { pose proof animal_vectors_norms as Hn. unfold _normalize.
    induction Hn as [|v l Hv _ IH]; simpl; [reflexivity|].
    by rewrite normalize_unit_row, IH. }
  unfold add. cbn [len length negb Z.eqb Z.of_nat Pos.of_succ_nat Pos.succ Pos.eqb].
  rewrite H. reflexivity.
Qed.

Lemma cat_query_in_range : in_range cat_query.
Proof.
  split.
  - apply Rle_trans with (sqrt 1); [rewrite sqrt_1; unfold norm_floor; lra|].
    unfold l2_norm. apply sqrt_le_1_alt. unfold cat_query. simpl. lra.
  - unfold cat_query, f32_max. simpl. lra.
Qed.

(** Within range, the query as [search] normalizes it is the
    L2-normalized query. *)
Lemma hit_of_cosine (st : FAISSVectorStore) (q : vec) (i : nat)
    (h : document * R) :
  in_range q -> hit_of st q i h -> cosine_hit st q i h.
Proof.
  intros Hq (Hdoc & v & Hv & Hs). split; [exact Hdoc|].
  exists v. split; [exact Hv|]. by rewrite <- normalize_row_l2_normalized.
Qed.

(** A query below the floor is divided by the floor. *)
Lemma tiny_row_normalized :
  normalize_row [1e-20; 0; 0; 0]%R = [1e-10; 0; 0; 0]%R.
Proof.
  rewrite normalize_row_finite by (unfold f32_max; simpl; lra).
  rewrite l2_norm_axis by lra. unfold norm_floor.
  rewrite Rmax_right by lra. simpl.
  repeat (apply (f_equal2 (@cons R)); [lra|]). reflexivity.
Qed.

Lemma tiny_row_l2_normalized :
  l2_normalized [1e-20; 0; 0; 0]%R = [1; 0; 0; 0]%R.
Proof.
  unfold l2_normalized. rewrite l2_norm_axis by lra. simpl.
  repeat (apply (f_equal2 (@cons R)); [lra|]). reflexivity.
Qed.

(** A row whose sum of squares is beyond float32 is divided by
    [inf]. *)
Lemma huge_row_normalized :
  normalize_row [3e38; 3e38; 0; 0]%R = [0; 0; 0; 0]%R.
Proof. rewrite normalize_row_overflow by (unfold f32_max; simpl; lra). reflexivity. Qed.

(** *** The claims on the vector store *)

(** C3 (amended).  On a store whose vectors and payloads match 1:1
    and hold [n] entries, [search(q, k)] with a query of the index
    dimension and [k >= 1] returns exactly [min(k, n)] pairs; and when
    the index holds no entry, [search] returns the empty sequence for
    every [q] and every [k], without raising. *)
Theorem search_count (st : FAISSVectorStore) :
  (forall (q : vec) (k : Z),
      consistent st -> len q = d (index st) -> 1 <= k ->
      exists res, search st q k = Return res /\
                  len res = Z.min k (ntotal (index st)) /\
                  ntotal (index st) = size st) /\
  (forall (q : vec) (k : Z),
      ntotal (index st) = 0 -> search st q k = Return []).
Proof.
  split.
  - intros q k Hc Hq Hk.
    destruct (search_returns st q k Hc Hq Hk) as (res & Hs & Hl).
    exists res. repeat split; [exact Hs | exact Hl |].
    unfold ntotal, size, len. by rewrite Hc.
  - intros q k. apply search_empty.
Qed.

Lemma search_count_witness :
  consistent animals /\ len cat_query = d (index animals) /\ 1 <= 5 /\
  exists res, search animals cat_query 5 = Return res /\
              len res = Z.min 5 (ntotal (index animals)) /\
              ntotal (index animals) = size animals.
Proof.
  split; [reflexivity|]. split; [reflexivity|]. split; [lia|].
  apply (proj1 (search_count animals) cat_query 5); [reflexivity | reflexivity | lia].
Defined.

(** C3 as stated fails for [k = -1]: no sequence has [min(-1, 3)]
    elements; the engine rejects the clamped [k] and [search] raises. *)
Lemma search_negative_k :
  search animals cat_query (-1) = Raise AssertionError /\
  ~ exists res, search animals cat_query (-1) = Return res /\
                len res = Z.min (-1) (ntotal (index animals)).
Proof.
  assert (H : search animals cat_query (-1) = Raise AssertionError).
  { rewrite search_nonempty by exact animals_nonempty. reflexivity. }
  split; [exact H|]. intros (res & Hres & _). congruence.
Qed.

(** C4 (amended).  For every query vector whose L2 norm is at least
    the floor [1e-10] and whose sum of squares is a finite float32,
    and every [k]: the sequence returned by [search] is sorted by
    score non-increasing; each score is the inner product of the
    L2-normalized query, a vector of norm 1, with the stored vector
    of the payload's entry; and of two results with equal scores the
    earlier inserted entry comes first ([labelled] pairs each result
    with its insertion position). *)
Theorem search_ranking (st : FAISSVectorStore) (q : vec) (k : Z)
    (res : list (document * R)) :
  in_range q ->
  search st q k = Return res ->
  l2_norm (l2_normalized q) = 1%R /\
  exists labelled : list (nat * (document * R)),
    map snd labelled = res /\
    Forall (fun x => cosine_hit st q (fst x) (snd x)) labelled /\
    StronglySorted ranked_before labelled /\
    StronglySorted (fun a b : document * R => (snd b <= snd a)%R) res.
Proof.
  intros Hq Hs. split.
  - rewrite <- normalize_row_l2_normalized by exact Hq.
    by apply normalize_row_unit.
  - destruct (search_labelled st q k res Hs) as (lab & Hmap & Hhit & Hsort).
    exists lab. repeat split; try assumption.
    + eapply List.Forall_impl; [|exact Hhit].
      intros x Hx. by apply hit_of_cosine.
    + by apply (search_sorted st q k).
Qed.

Lemma search_ranking_witness :
  in_range cat_query /\
  search animals cat_query 2
    = Return [(doc_cats, dot (normalize_row cat_query) [1; 0; 0; 0]%R);
              (doc_dogs, dot (normalize_row cat_query) [0; 1; 0; 0]%R)] /\
  l2_norm (l2_normalized cat_query) = 1%R /\
  exists labelled : list (nat * (document * R)),
    map snd labelled
      = [(doc_cats, dot (normalize_row cat_query) [1; 0; 0; 0]%R);
         (doc_dogs, dot (normalize_row cat_query) [0; 1; 0; 0]%R)] /\
    Forall (fun x => cosine_hit animals cat_query (fst x) (snd x)) labelled /\
    StronglySorted ranked_before labelled /\
    StronglySorted (fun a b : document * R => (snd b <= snd a)%R)
      [(doc_cats, dot (normalize_row cat_query) [1; 0; 0; 0]%R);
       (doc_dogs, dot (normalize_row cat_query) [0; 1; 0; 0]%R)].
Proof.
  split; [exact cat_query_in_range|]. split; [exact cat_query_search|].
  exact (search_ranking animals cat_query 2 _ cat_query_in_range cat_query_search).
Defined.

(** C4 as stated fails for a query below the floor: [1e-20, 0, 0, 0]
    is divided by [1e-10], not by its norm.  Its L2-normalized form
    is [1, 0, 0, 0], whose inner product with the first stored
    vector is 1, yet [search] returns that entry with score [1e-10]:
    no assignment of positions makes the returned scores the inner
    products with the L2-normalized query. *)
Lemma search_tiny_query :
  let q := [1e-20; 0; 0; 0]%R in
  let res := [(doc_cats, 1e-10%R); (doc_dogs, 0%R)] in
  search animals q 2 = Return res /\
  l2_normalized q = [1; 0; 0; 0]%R /\
  dot (l2_normalized q) [1; 0; 0; 0]%R = 1%R /\
  ~ exists labelled : list (nat * (document * R)),
      map snd labelled = res /\
      Forall (fun x => cosine_hit animals q (fst x) (snd x)) labelled.
Proof.
  intros q res.
  assert (Hs : search animals q 2 = Return res).
  { unfold q, res. rewrite animals_search; rewrite ?tiny_row_normalized; simpl;
      [|reflexivity|lra|lra].
    do 2 f_equal; [f_equal; lra|]. do 2 f_equal. lra. }
  assert (Hu : l2_normalized q = [1; 0; 0; 0]%R) by exact tiny_row_l2_normalized.
  split; [exact Hs|]. split; [exact Hu|].
  split; [rewrite Hu; simpl; lra|].
  intros (labelled & Hmap & Hhit).
  destruct labelled as [|[i h] rest]; [discriminate|].
  simpl in Hmap. injection Hmap as -> _.
  inversion Hhit as [|? ? (Hdoc & v & Hv & Hscore) _]; subst.
  cbn [fst snd] in Hdoc, Hv, Hscore. rewrite Hu in Hscore.
  destruct i as [|[|[|i]]]; simpl in Hdoc, Hv.
  - injection Hv as <-. simpl in Hscore. lra.
  - discriminate.
  - discriminate.
  - destruct i; discriminate.
Qed.

(** C6.  After [save(name)], [load(name)] into a fresh store of the
    same dimension and store path succeeds and restores the saved
    store, so that [search] returns the same results (payloads,
    ranking and scores) for every query vector and every [k]. *)
Theorem save_load_round_trip (st : FAISSVectorStore) (name : string)
    (fs : gmap string artifact) :
  let fresh := init (dimension st) (store_path st) in
  let loaded := load fresh name (save st name fs) in
  fst loaded = true /\
  index (snd loaded) = index st /\
  documents (snd loaded) = documents st /\
  forall (q : vec) (k : Z), search (snd loaded) q k = search st q k.
Proof.
  intros fresh loaded. unfold loaded.
  rewrite load_after_save by reflexivity. simpl. repeat split.
Qed.

(** C8 (amended).  For every sequence of [add] calls whose input
    vectors all have L2 norm at least the floor [1e-10] and a sum of
    squares that is a finite float32, every vector held in the index
    afterwards has L2 norm within [1e-5] of 1 (rounding aside: equal
    to 1); [add] preserves this invariant, [clear] and construction
    establish it, and the divisor used by normalization is never
    zero. *)
Theorem add_preserves_unit_norms (st st' : FAISSVectorStore)
    (calls : list (list vec * list document)) :
  unit_norms st ->
  Forall (fun call => Forall in_range (fst call)) calls ->
  add_all st calls = Return st' ->
  unit_norms st' /\
  unit_norms (clear st') /\
  unit_norms (init (dimension st) (store_path st)) /\
  (forall v : vec, nonzero (maximum (linalg_norm v) norm_floor)).
Proof.
  intros Hst Hcalls Hadd. split; [|split; [|split]].
  - eapply add_all_unit_norms; eauto.
  - apply clear_unit_norms.
  - apply init_unit_norms.
  - apply divisor_nonzero.
Qed.

Lemma add_preserves_unit_norms_witness :
  unit_norms (init 4 "data/test_store") /\
  Forall (fun call => Forall in_range (fst call))
    [(animal_vectors, [doc_cats; doc_dogs; doc_birds])] /\
  add_all (init 4 "data/test_store")
    [(animal_vectors, [doc_cats; doc_dogs; doc_birds])] = Return animals /\
  unit_norms animals.
Proof.
  assert (H1 : unit_norms (init 4 "data/test_store")) by constructor.
  assert (H2 : Forall (fun call => Forall in_range (fst call))
                 [(animal_vectors, [doc_cats; doc_dogs; doc_birds])]).
  { constructor; [|constructor]. simpl.
    eapply List.Forall_impl; [|exact animal_vectors_norms].
    intros v Hv. by apply unit_in_range. }
  assert (H3 : add_all (init 4 "data/test_store")
                 [(animal_vectors, [doc_cats; doc_dogs; doc_birds])] = Return animals).
  { cbn [add_all]. rewrite add_animals. reflexivity. }
  split; [exact H1|]. split; [exact H2|]. split; [exact H3|].
  exact (proj1 (add_preserves_unit_norms _ _ _ H1 H2 H3)).
Defined.

(** C8 as stated fails for a non-zero vector whose norm is below the
    floor: [1e-20, 0, 0, 0] is divided by [1e-10], not by its norm,
    and is stored with norm [1e-10]. *)
Lemma add_tiny_vector :
  let v := [1e-20; 0; 0; 0]%R in
  (exists x, In x v /\ x <> 0%R) /\
  exists st', add (init 4 "data/test_store") [v] [doc_cats] = Return st' /\
              xb (index st') = [normalize_row v] /\
              l2_norm (normalize_row v) = 1e-10%R /\
              ~ unit_norms st'.
Proof.
  intros v. split; [exists 1e-20%R; split; [by left | lra]|].
  assert (Hn : l2_norm (normalize_row v) = 1e-10%R).
  { unfold v. rewrite tiny_row_normalized. apply l2_norm_axis. lra. }
  eexists. split; [reflexivity|]. split; [reflexivity|]. split; [exact Hn|].
  unfold unit_norms. simpl. intros H. inversion H as [|? ? Hv _]; subst.
  fold v in Hv. rewrite Hn in Hv.
  rewrite Rabs_left in Hv by lra. lra.
Qed.

(** The same happens at the other end of the range: the squares of
    [3e38, 3e38, 0, 0] overflow float32, the computed norm is [inf]
    and the vector is stored as the zero row. *)
Example add_huge_vector :
  let v := [3e38; 3e38; 0; 0]%R in
  (norm_floor <= l2_norm v)%R /\
  exists st', add (init 4 "data/test_store") [v] [doc_cats] = Return st' /\
              xb (index st') = [[0; 0; 0; 0]%R] /\
              ~ unit_norms st'.
Proof.
  intros v. split.
  - apply Rle_trans with (sqrt 1); [rewrite sqrt_1; unfold norm_floor; lra|].
    unfold l2_norm. apply sqrt_le_1_alt. unfold v. simpl. lra.
  - eexists. split; [reflexivity|].
    split; [simpl; fold v; unfold v; by rewrite huge_row_normalized|].
    unfold unit_norms. simpl. fold v. unfold v. rewrite huge_row_normalized.
    intros H. inversion H as [|? ? Hv _]; subst.
    rewrite (l2_norm_axis 0) in Hv by lra.
    rewrite Rabs_left in Hv by lra. lra.
Qed.

End VectorStoreFacts.

Module RetrieverFacts.
Import Py Retriever VectorStore VectorStoreSpec VectorStoreFacts RetrieverSpec.

Section WithFormat.
Variable format_2f : R -> string.

Lemma piece_tokens_nonneg (p : string) : 0 <= piece_tokens p.
Proof. unfold piece_tokens, Str.len. apply Z.div_pos; lia. Qed.

Lemma cost_nonneg (ps : list string) : 0 <= cost ps.
Proof.
  induction ps as [|p ps IH]; simpl; [lia|].
  pose proof (piece_tokens_nonneg p). lia.
Qed.

Lemma cost_app (ps qs : list string) : cost (ps ++ qs) = cost ps + cost qs.
Proof. induction ps as [|p ps IH]; simpl; lia. Qed.

Lemma format_loop_prefix (max_tokens : Z) (results : list result) :
  forall (i : Z) (parts : list string) (cur : Z),
  exists n : nat,
    (n <= length results)%nat /\
    format_loop format_2f max_tokens i results parts cur
      = parts ++ firstn n (pieces_from format_2f i results) /\
    (cur <= max_tokens ->
       cur + cost (firstn n (pieces_from format_2f i results)) <= max_tokens) /\
    (forall b, nth_error (pieces_from format_2f i results) n = Some b ->
       cur + cost (firstn n (pieces_from format_2f i results)) + piece_tokens b
         > max_tokens).
Proof.
  induction results as [|r rs IH]; intros i parts cur.
  - exists 0%nat. simpl. repeat split; [lia | by rewrite app_nil_r | lia | discriminate].
  - simpl.
    destruct (Z.gtb_spec (cur + piece_tokens (context_piece format_2f i r))
                max_tokens) as [Hgt|Hle].
    + exists 0%nat. simpl. repeat split; [lia | by rewrite app_nil_r | lia |].
      intros b [= <-]. lia.
    + destruct (IH (i + 1) (parts ++ [context_piece format_2f i r])
                  (cur + piece_tokens (context_piece format_2f i r)))
        as (n & Hn & Heq & Hsum & Hstop).
      exists (S n). simpl. repeat split.
      * lia.
      * rewrite Heq, <- app_assoc. reflexivity.
      * intros _. specialize (Hsum Hle). lia.
      * intros b Hb. specialize (Hstop b Hb). lia.
Qed.

Lemma included_parts_prefix (results : list result) (max_tokens : Z) :
  exists n : nat,
    (n <= length results)%nat /\
    included_parts format_2f results max_tokens
      = firstn n (blocks format_2f results) /\
    (0 <= max_tokens -> cost (firstn n (blocks format_2f results)) <= max_tokens) /\
    (forall b, nth_error (blocks format_2f results) n = Some b ->
       cost (firstn n (blocks format_2f results)) + piece_tokens b > max_tokens).
Proof.
  destruct (format_loop_prefix max_tokens results 1 [] 0)
    as (n & Hn & Heq & Hsum & Hstop).
  exists n. unfold included_parts, blocks. simpl in Heq.
  repeat split; [exact Hn | exact Heq | intros H; specialize (Hsum H); lia |].
  intros b Hb. specialize (Hstop b Hb). lia.
Qed.

Lemma context_piece_head (i : Z) (r : result) :
  exists s, context_piece format_2f i r = String Str.nl s.
Proof. unfold context_piece. simpl. eexists. reflexivity. Qed.

Lemma join_pieces_not_sentinel (n : nat) (i : Z) (results : list result) :
  Str.join separator (firstn n (pieces_from format_2f i results)) <> no_information.
Proof.
  destruct n as [|n]; [discriminate|].
  destruct results as [|r rs]; [discriminate|].
  simpl. destruct (context_piece_head i r) as [s Hs]. rewrite Hs.
  destruct (firstn n (pieces_from format_2f (i + 1) rs)); discriminate.
Qed.

(** Spec scenario 5: no result gives the sentinel. *)
Example format_context_no_results (max_tokens : Z) :
  format_context format_2f [] max_tokens = no_information.
Proof. reflexivity. Qed.

(** C2 (amended).  For every non-empty result sequence and every
    budget [max_tokens >= 0], [format_context] joins a prefix of the
    candidate blocks, taken in their given order: the prefix stops at
    the first block whose estimated cost would push the running
    estimate over [max_tokens], nothing after that block is included,
    and the estimated costs of the included blocks sum to at most
    [max_tokens]. *)
Theorem format_context_budget (results : list result) (max_tokens : Z) :
  results <> [] ->
  0 <= max_tokens ->
  exists n : nat,
    (n <= length results)%nat /\
    included_parts format_2f results max_tokens
      = firstn n (blocks format_2f results) /\
    format_context format_2f results max_tokens
      = Str.join separator (firstn n (blocks format_2f results)) /\
    cost (firstn n (blocks format_2f results)) <= max_tokens /\
    (forall b, nth_error (blocks format_2f results) n = Some b ->
       cost (firstn n (blocks format_2f results)) + piece_tokens b > max_tokens).
Proof.
  intros Hne Hmax.
  destruct (included_parts_prefix results max_tokens)
    as (n & Hn & Heq & Hsum & Hstop).
  exists n. repeat split; auto.
  unfold format_context. destruct results; [congruence|].
  rewrite Heq. reflexivity.
Qed.

(** C10.  When the first formatted block of a non-empty result
    sequence alone costs more than [max_tokens], [format_context]
    returns the empty string, which is not the sentinel; and the
    sentinel is returned only for the empty result sequence. *)
Theorem format_context_first_block_too_large
    (r : result) (rest : list result) (max_tokens : Z) :
  piece_tokens (context_piece format_2f 1 r) > max_tokens ->
  format_context format_2f (r :: rest) max_tokens = ""%string /\
  format_context format_2f (r :: rest) max_tokens <> no_information /\
  (forall results m,
      format_context format_2f results m = no_information -> results = []).
Proof.
  intros Hgt.
  assert (Hempty : format_context format_2f (r :: rest) max_tokens = ""%string).
  { unfold format_context, included_parts. simpl.
    destruct (Z.gtb_spec (0 + piece_tokens (context_piece format_2f 1 r)) max_tokens);
      [reflexivity | lia]. }
  split; [exact Hempty|]. split; [rewrite Hempty; discriminate|].
  intros results m Hs. destruct results as [|r' rs]; [reflexivity|].
  exfalso. unfold format_context in Hs.
  destruct (included_parts_prefix (r' :: rs) m) as (n & _ & Heq & _).
  rewrite Heq in Hs. exact (join_pieces_not_sentinel n 1 (r' :: rs) Hs).
Qed.

End WithFormat.

Lemma format_context_budget_witness :
  [result_a; result_b] <> [] /\ 0 <= 20 /\
  exists n : nat,
    (n <= length [result_a; result_b])%nat /\
    included_parts two_decimals [result_a; result_b] 20
      = firstn n (blocks two_decimals [result_a; result_b]) /\
    format_context two_decimals [result_a; result_b] 20
      = Str.join separator (firstn n (blocks two_decimals [result_a; result_b])) /\
    cost (firstn n (blocks two_decimals [result_a; result_b])) <= 20 /\
    (forall b, nth_error (blocks two_decimals [result_a; result_b]) n = Some b ->
       cost (firstn n (blocks two_decimals [result_a; result_b])) + piece_tokens b > 20).
Proof.
  split; [discriminate|]. split; [lia|].
  apply (format_context_budget two_decimals [result_a; result_b] 20); [discriminate | lia].
Defined.

(** C2 as stated fails for a negative budget: nothing is included, and
    the sum of the included costs, 0, is above [max_tokens = -1]. *)
Lemma format_context_negative_budget :
  [result_a] <> [] /\
  included_parts two_decimals [result_a] (-1) = [] /\
  ~ cost (included_parts two_decimals [result_a] (-1)) <= -1.
Proof.
  split; [discriminate|].
  assert (H : included_parts two_decimals [result_a] (-1) = []) by reflexivity.
  split; [exact H|]. rewrite H. simpl. lia.
Qed.

Lemma format_context_first_block_too_large_witness :
  piece_tokens (context_piece two_decimals 1 result_a) > 5 /\
  format_context two_decimals [result_a; result_b] 5 = ""%string.
Proof.
  assert (H : piece_tokens (context_piece two_decimals 1 result_a) > 5)
    by (vm_compute; reflexivity).
  split; [exact H|].
  apply (format_context_first_block_too_large two_decimals result_a [result_b] 5 H).
Defined.





Lemma retrieve_unfold (r : RAGRetriever) (query : string) (k : option Z) :
  blank query = false ->
  retrieve r query k =
    match embedder r query with
    | Return v =>
        match search (vector_store r) v (choose_k r k) with
        | Return results => Return (filter_results (score_threshold r) results)
        | Raise _ => Return []
        end
    | Raise _ => Return []
    end.
Proof.
  intros Hb. unfold retrieve. rewrite Hb.
  destruct (embedder r query) as [v|e]; simpl; [|reflexivity].
  destruct (search (vector_store r) v (choose_k r k)); reflexivity.
Qed.


(** C1 (amended).  [retrieve] never raises: when the embedding call
    (after its retries) or the index search raises, the exception is
    caught and the empty sequence is returned. *)
Theorem retrieve_catches_failures (r : RAGRetriever) (query : string)
    (k : option Z) :
  (exists res, retrieve r query k = Return res) /\
  (forall e, embedder r query = Raise e -> retrieve r query k = Return []) /\
  (forall v e, embedder r query = Return v ->
               search (vector_store r) v (choose_k r k) = Raise e ->
               retrieve r query k = Return []).
Proof.
  destruct (blank query) eqn:Hb.
  - unfold retrieve. rewrite Hb. eauto.
  - rewrite (retrieve_unfold r query k Hb).
    destruct (embedder r query) as [v|e].
    + destruct (search (vector_store r) v (choose_k r k)) as [results|e] eqn:Hs.
      * split; [eauto|]. split; [discriminate|].
        intros v' e' [= <-]. rewrite Hs. discriminate.
      * split; [eauto|]. split; [discriminate | reflexivity].
    + split; [eauto|]. split; [reflexivity | discriminate].
Qed.

(** C1 as stated fails: with an embedder that raises on a non-blank
    query over a non-empty index, [retrieve] returns the empty
    sequence and no error reaches the caller. *)
Lemma retrieve_swallows_provider_failure :
  blank "cats" = false /\
  ntotal (index (vector_store failing_retriever)) <> 0 /\
  embedder failing_retriever "cats" = Raise RetryError /\
  retrieve failing_retriever "cats" None = Return [] /\
  ~ exists e, retrieve failing_retriever "cats" None = Raise e.
Proof.
  split; [reflexivity|]. split; [exact animals_nonempty|].
  split; [reflexivity|].
  assert (H : retrieve failing_retriever "cats" None = Return []) by reflexivity.
  split; [exact H|]. intros [e He]. congruence.
Qed.



(** The guard in front of the embedding call: for the empty query
    and for a query of white space only, [retrieve] returns the empty
    sequence at once, whatever the embedder and the index hold. *)
Lemma retrieve_blank_query (r : RAGRetriever) (query : string) (k : option Z) :
  blank query = true -> retrieve r query k = Return [].
Proof. intros Hb. unfold retrieve. by rewrite Hb. Qed.

End RetrieverFacts.

Module ChunkerMoreFacts.
Import Py Chunker ChunkerSpec ChunkerFacts ChunkerMoreSpec.

(** *** White space and [strip] *)

Lemma nl_is_space : Str.is_space Str.nl = true.
Proof. reflexivity. Qed.

Lemma has_text_app (a b : list ascii) : has_text (a ++ b) <-> has_text a \/ has_text b.
Proof. unfold has_text. apply Exists_app. Qed.

Lemma has_text_rev (a : list ascii) : has_text (rev a) <-> has_text a.
Proof.
  unfold has_text. rewrite !List.Exists_exists.
  split; intros (c & Hin & Hc); exists c; split; auto;
    [by apply in_rev | by apply in_rev in Hin].
Qed.

Lemma has_text_cons (c : ascii) (l : list ascii) :
  has_text (c :: l) <-> Str.is_space c = false \/ has_text l.
Proof. unfold has_text. apply Exists_cons. Qed.

Lemma lstrip_has_text (l : list ascii) : has_text (Str.lstrip_chars l) <-> has_text l.
Proof.
  induction l as [|c l IH]; simpl; [reflexivity|].
  destruct (Str.is_space c) eqn:Hc; [|reflexivity].
  rewrite IH, has_text_cons. intuition congruence.
Qed.

Lemma strip_chars_has_text (l : list ascii) : has_text (Str.strip_chars l) <-> has_text l.
Proof.
  unfold Str.strip_chars.
  by rewrite has_text_rev, lstrip_has_text, has_text_rev, lstrip_has_text.
Qed.

Lemma lstrip_nonempty_has_text (l : list ascii) :
  Str.lstrip_chars l <> [] -> has_text l.
Proof.
  induction l as [|c l IH]; simpl; [congruence|].
  destruct (Str.is_space c) eqn:Hc.
  - intros H. apply has_text_cons. right. auto.
  - intros _. apply has_text_cons. by left.
Qed.

Lemma strip_chars_nonempty (l : list ascii) : Str.strip_chars l <> [] <-> has_text l.
Proof.
  split.
  - unfold Str.strip_chars. intros H.
    assert (H1 : Str.lstrip_chars (rev (Str.lstrip_chars l)) <> []).
    { intros E. apply H. by rewrite E. }
    apply lstrip_nonempty_has_text in H1.
    apply (proj1 (has_text_rev _)) in H1.
    exact (proj1 (lstrip_has_text _) H1).
  - intros H%strip_chars_has_text E. rewrite E in H. inversion H.
Qed.

Lemma truthy_of_chars (l : list ascii) : Str.truthy (Str.of_chars l) = true <-> l <> [].
Proof. destruct l; simpl; split; congruence. Qed.

Lemma strip_of_chars (l : list ascii) :
  Str.strip (Str.of_chars l) = Str.of_chars (Str.strip_chars l).
Proof.
  unfold Str.strip, Str.chars, Str.of_chars.
  by rewrite list_ascii_of_string_of_list_ascii.
Qed.

Lemma strip_truthy (s : string) :
  Str.truthy (Str.strip s) = true <-> has_text (Str.chars s).
Proof.
  unfold Str.strip. rewrite truthy_of_chars. apply strip_chars_nonempty.
Qed.

Lemma truthy_has_chars (s : string) : Str.truthy s = true <-> s <> ""%string.
Proof. destruct s; simpl; split; congruence. Qed.

(** A text is blank exactly when it has no character other than
    white space. *)
Lemma not_blank_has_text (text : string) :
  negb (Str.truthy text) || negb (Str.truthy (Str.strip text)) = false
  <-> has_text (Str.chars text).
Proof.
  rewrite orb_false_iff, !negb_false_iff, strip_truthy. split; [tauto|].
  intros H. split; [|exact H]. destruct text; [inversion H | reflexivity].
Qed.

(** *** The regular-expression splits keep every visible character *)

Lemma split_blank_lines_has_text (cs : list ascii) :
  forall (cur : list ascii) (pend : option (bool * list ascii)),
  has_text cur \/ has_text cs ->
  Exists has_text (split_blank_lines cs cur pend).
Proof.
  induction cs as [|c cs IH]; intros cur pend H.
  - destruct H as [H|H]; [|inversion H]. simpl.
    destruct pend as [[[] tl]|]; constructor; rewrite has_text_rev;
      rewrite ?has_text_app, ?has_text_cons; auto.
  - assert (Hc : Str.is_space c = false \/ has_text cur \/ has_text cs).
    { destruct H as [H|H]; [auto|]. apply has_text_cons in H. tauto. }
    simpl. destruct pend as [[m tl]|].
    + destruct (Ascii.eqb_spec c Str.nl) as [->|Hnl].
      { apply IH. destruct Hc as [Hc|Hc]; [|tauto].
        rewrite nl_is_space in Hc. discriminate. }
      destruct (Str.is_space c) eqn:Hsp.
      { apply IH. destruct Hc as [Hc|Hc]; [discriminate | tauto]. }
      destruct m.
      * apply Exists_cons_tl, IH. left. apply has_text_cons. by left.
      * apply IH. left. apply has_text_cons. by left.
    + destruct (Ascii.eqb_spec c Str.nl) as [->|Hnl].
      { apply IH. destruct Hc as [Hc|Hc]; [|tauto].
        rewrite nl_is_space in Hc. discriminate. }
      apply IH. rewrite has_text_cons. tauto.
Qed.

Lemma split_after_punct_has_text (cs : list ascii) :
  forall (cur : list ascii) (in_sep : bool),
  has_text cur \/ has_text cs ->
  Exists has_text (split_after_punct cs cur in_sep).
Proof.
  induction cs as [|c cs IH]; intros cur in_sep H.
  - destruct H as [H|H]; [|inversion H]. simpl.
    destruct in_sep; constructor; by rewrite has_text_rev.
  - assert (Hc : Str.is_space c = false \/ has_text cur \/ has_text cs).
    { destruct H as [H|H]; [auto|]. apply has_text_cons in H. tauto. }
    simpl. destruct in_sep.
    + destruct (Str.is_space c) eqn:Hsp.
      * apply IH. destruct Hc as [Hc|Hc]; [discriminate | tauto].
      * apply Exists_cons_tl, IH. left. apply has_text_cons. by left.
    + destruct cur as [|p cur].
      * apply IH. rewrite has_text_cons.
        destruct Hc as [Hc|[Hc|Hc]]; [auto | inversion Hc | auto].
      * destruct (Str.is_space c && is_sentence_end p) eqn:Hsep.
        -- apply andb_true_iff in Hsep as [Hsp _]. apply IH.
           destruct Hc as [Hc|Hc]; [congruence | tauto].
        -- apply IH. rewrite has_text_cons. tauto.
Qed.

Lemma split_blank_lines_from_text (cs : list ascii) :
  forall (cur : list ascii) (pend : option (bool * list ascii)),
  Exists has_text (split_blank_lines cs cur pend) ->
  has_text cur \/ has_text cs \/
  match pend with Some (_, tl) => has_text tl | None => False end.
Proof.
  induction cs as [|c cs IH]; intros cur pend H.
  - simpl in H. destruct pend as [[[] tl]|].
    + apply Exists_cons in H as [H|H]; [left; by apply has_text_rev|].
      apply Exists_cons in H as [H|H]; [|inversion H].
      right. right. by apply has_text_rev.
    + apply Exists_cons in H as [H|H]; [|inversion H].
      apply has_text_rev, has_text_app in H as [H|H]; [tauto|].
      apply has_text_cons in H as [H|H]; [|tauto].
      rewrite nl_is_space in H. discriminate.
    + apply Exists_cons in H as [H|H]; [|inversion H].
      left. by apply has_text_rev.
  - destruct (Str.is_space c) eqn:Hsp;
      [|right; left; apply has_text_cons; by left].
    simpl in H. destruct pend as [[m tl]|].
    + destruct (Ascii.eqb c Str.nl).
      * apply IH in H as [H|[H|H]]; [tauto | | inversion H].
        right. left. apply has_text_cons. tauto.
      * rewrite Hsp in H. apply IH in H as [H|[H|H]]; [tauto | |].
        -- right. left. apply has_text_cons. tauto.
        -- apply has_text_cons in H as [H|H]; [congruence | tauto].
    + destruct (Ascii.eqb c Str.nl).
      * apply IH in H as [H|[H|H]]; [tauto | | inversion H].
        right. left. apply has_text_cons. tauto.
      * apply IH in H as [H|[H|[]]].
        -- apply has_text_cons in H as [H|H]; [congruence | tauto].
        -- right. left. apply has_text_cons. tauto.
Qed.

(** Pieces kept by [strip_nonblank]. *)
Lemma strip_nonblank_In (pieces : list (list ascii)) (p : string) :
  In p (strip_nonblank pieces) ->
  Str.truthy p = true /\ has_text (Str.chars p) /\
  exists piece, In piece pieces /\ p = Str.of_chars (Str.strip_chars piece).
Proof.
  unfold strip_nonblank. intros (piece & <- & Hin)%in_map_iff.
  apply list_elem_of_In, list_elem_of_filter in Hin as [Ht Hin].
  apply Is_true_true in Ht. apply list_elem_of_In in Hin.
  split; [exact Ht|].
  rewrite strip_of_chars in *. split; [|eauto].
  unfold Str.chars, Str.of_chars. rewrite list_ascii_of_string_of_list_ascii.
  apply truthy_of_chars, strip_chars_nonempty in Ht.
  by apply strip_chars_has_text.
Qed.

Lemma strip_nonblank_nonempty (pieces : list (list ascii)) :
  Exists has_text pieces -> strip_nonblank pieces <> [].
Proof.
  intros (piece & Hin & Ht)%List.Exists_exists. unfold strip_nonblank.
  intros E. apply map_eq_nil in E.
  assert (Hf : piece ∈ filter
                 (fun p => Str.truthy (Str.strip (Str.of_chars p))) pieces).
  { apply list_elem_of_filter. split; [|by apply list_elem_of_In].
    apply Is_true_true. rewrite strip_of_chars.
    by apply truthy_of_chars, strip_chars_nonempty. }
  rewrite E in Hf. inversion Hf.
Qed.

Lemma paragraph_from_text (text p : string) :
  In p (_split_into_paragraphs text) -> has_text (Str.chars text).
Proof.
  unfold _split_into_paragraphs.
  intros (_ & Hp & piece & Hin & ->)%strip_nonblank_In.
  unfold Str.chars, Str.of_chars in Hp.
  rewrite list_ascii_of_string_of_list_ascii in Hp.
  apply (proj1 (strip_chars_has_text _)) in Hp.
  assert (He : Exists has_text (split_blank_lines (Str.chars text) [] None)).
  { apply List.Exists_exists. exists piece. split; [exact Hin | exact Hp]. }
  apply split_blank_lines_from_text in He as [H|[H|[]]]; [inversion H | exact H].
Qed.

Lemma paragraphs_nonempty (text : string) :
  has_text (Str.chars text) -> _split_into_paragraphs text <> [].
Proof.
  intros H. apply strip_nonblank_nonempty, split_blank_lines_has_text. by right.
Qed.

Lemma sentences_nonempty (text : string) :
  has_text (Str.chars text) -> _split_into_sentences text <> [].
Proof.
  intros H. apply strip_nonblank_nonempty, split_after_punct_has_text. by right.
Qed.

Lemma paragraphs_have_text (text : string) :
  Forall (fun p => Str.truthy p = true /\ has_text (Str.chars p))
    (_split_into_paragraphs text).
Proof.
  apply List.Forall_forall. intros p Hp.
  apply strip_nonblank_In in Hp as (? & ? & _). auto.
Qed.

Lemma sentences_have_text (text : string) :
  Forall (fun p => Str.truthy p = true /\ has_text (Str.chars p))
    (_split_into_sentences text).
Proof.
  apply List.Forall_forall. intros p Hp.
  apply strip_nonblank_In in Hp as (? & ? & _). auto.
Qed.

(** *** Chunks are never empty and carry their token count *)

Lemma truthy_app (a b : string) :
  Str.truthy a = true -> Str.truthy (a ++ b) = true.
Proof. destruct a; [discriminate | reflexivity]. Qed.

Lemma join_truthy (parts : list string) :
  parts <> [] -> Forall (fun p => Str.truthy p = true) parts ->
  Str.truthy (Str.join " " parts) = true.
Proof.
  destruct parts as [|p [|q parts]]; [congruence | |]; intros _ H;
    inversion H; subst; [assumption|].
  change (Str.join " " (p :: q :: parts))
    with (p ++ " " ++ Str.join " " (q :: parts))%string.
  by apply truthy_app.
Qed.

Section WithChunker.
Variable chunk_size : Z.
Variable chunk_overlap : Z.
Variable tokenizer : option Tokenizer.

Lemma create_chunk_good parts src i md :
  parts <> [] -> Forall (fun p => Str.truthy p = true) parts ->
  good_chunk tokenizer md (_create_chunk tokenizer parts src i md).
Proof. intros Hne Hp. split; [by apply join_truthy | reflexivity]. Qed.

Lemma sentence_step_good src start md a sentence :
  Str.truthy sentence = true ->
  Forall (good_chunk tokenizer md) (chunks a) /\
    Forall (fun p => Str.truthy p = true) (current_chunk a) ->
  Forall (good_chunk tokenizer md)
    (chunks (sentence_step chunk_size tokenizer src start md a sentence)) /\
  Forall (fun p => Str.truthy p = true)
    (current_chunk (sentence_step chunk_size tokenizer src start md a sentence)).
Proof.
  intros Hs [Hc Hp]. unfold sentence_step.
  destruct (_ >? _); simpl.
  - split; [|by constructor].
    destruct (nonempty (current_chunk a)) eqn:Hne; [|exact Hc].
    apply Forall_app. split; [exact Hc|]. constructor; [|constructor].
    apply create_chunk_good; [by apply nonempty_true | exact Hp].
  - split; [exact Hc|]. apply Forall_app. split; [exact Hp | by constructor].
Qed.

Lemma split_large_paragraph_good para src start md :
  Forall (good_chunk tokenizer md)
    (_split_large_paragraph chunk_size tokenizer para src start md).
Proof.
  unfold _split_large_paragraph.
  pose proof (sentences_have_text para) as Hsent.
  set (step := sentence_step chunk_size tokenizer src start md).
  assert (Hinv : forall sentences a,
             Forall (fun p => Str.truthy p = true /\ has_text (Str.chars p)) sentences ->
             Forall (good_chunk tokenizer md) (chunks a) /\
               Forall (fun p => Str.truthy p = true) (current_chunk a) ->
             Forall (good_chunk tokenizer md) (chunks (fold_left step sentences a)) /\
               Forall (fun p => Str.truthy p = true)
                 (current_chunk (fold_left step sentences a))).
  { induction sentences as [|s ss IH]; intros a Hss Ha; simpl; [exact Ha|].
    inversion Hss as [|? ? [Hs _] Hss']; subst. apply IH; [exact Hss'|].
    by apply sentence_step_good. }
  destruct (Hinv _ {| chunks := []; current_chunk := []; current_tokens := 0 |} Hsent)
    as [Hc Hp]; [split; constructor|].
  destruct (nonempty _) eqn:Hne; [|exact Hc].
  apply Forall_app. split; [exact Hc|]. constructor; [|constructor].
  apply create_chunk_good; [by apply nonempty_true | exact Hp].
Qed.

Lemma append_reindexed_app (scs : list TextChunk) :
  forall cs, exists scs',
    append_reindexed cs scs = cs ++ scs' /\
    map content scs' = map content scs /\
    map metadata scs' = map metadata scs.
Proof.
  unfold append_reindexed.
  induction scs as [|c scs IH]; intros cs; simpl.
  - exists []. by rewrite app_nil_r.
  - destruct (IH (cs ++ [set_chunk_index c (len cs)])) as (scs' & -> & Hc & Hm).
    exists (set_chunk_index c (len cs) :: scs'). rewrite <- app_assoc. simpl.
    by rewrite Hc, Hm.
Qed.

Lemma good_chunk_ext md (c c' : TextChunk) :
  content c' = content c -> metadata c' = metadata c ->
  good_chunk tokenizer md c -> good_chunk tokenizer md c'.
Proof. unfold good_chunk. intros -> ->. auto. Qed.

Lemma Forall_good_ext md (l l' : list TextChunk) :
  map content l' = map content l -> map metadata l' = map metadata l ->
  Forall (good_chunk tokenizer md) l -> Forall (good_chunk tokenizer md) l'.
Proof.
  revert l'. induction l as [|c l IH]; intros [|c' l'] Hc Hm H;
    try discriminate; [constructor|].
  inversion H; subst. injection Hc as Hc0 Hc. injection Hm as Hm0 Hm.
  constructor; [by eapply good_chunk_ext | by apply IH].
Qed.

Lemma paragraph_step_good src md a para :
  Str.truthy para = true ->
  Forall (good_chunk tokenizer md) (chunks a) /\
    Forall (fun p => Str.truthy p = true) (current_chunk a) ->
  Forall (good_chunk tokenizer md)
    (chunks (paragraph_step chunk_size chunk_overlap tokenizer src md a para)) /\
  Forall (fun p => Str.truthy p = true)
    (current_chunk (paragraph_step chunk_size chunk_overlap tokenizer src md a para)).
Proof.
  intros Hpara [Hc Hp]. unfold paragraph_step.
  assert (Hflush : Forall (good_chunk tokenizer md)
            (if nonempty (current_chunk a)
             then chunks a ++ [_create_chunk tokenizer (current_chunk a) src
                                 (len (chunks a)) md]
             else chunks a)).
  { destruct (nonempty (current_chunk a)) eqn:Hne; [|exact Hc].
    apply Forall_app. split; [exact Hc|]. constructor; [|constructor].
    apply create_chunk_good; [by apply nonempty_true | exact Hp]. }
  destruct (count_tokens tokenizer para >? chunk_size).
  - simpl. set (a1 := if nonempty (current_chunk a) then _ else a).
    assert (Ha1 : Forall (good_chunk tokenizer md) (chunks a1) /\
                  Forall (fun p => Str.truthy p = true) (current_chunk a1)).
    { unfold a1. destruct (nonempty (current_chunk a)); simpl in *; auto. }
    destruct Ha1 as [Hc1 Hp1]. split; [|exact Hp1].
    destruct (append_reindexed_app
                (_split_large_paragraph chunk_size tokenizer para src
                   (len (chunks a1)) md) (chunks a1)) as (scs' & -> & Hcs & Hms).
    apply Forall_app. split; [exact Hc1|].
    eapply Forall_good_ext; [exact Hcs | exact Hms |].
    apply split_large_paragraph_good.
  - destruct (_ >? _); simpl.
    + split; [exact Hflush|].
      destruct (Str.truthy (_get_overlap_text chunk_overlap tokenizer (current_chunk a)))
        eqn:Ho; repeat constructor; assumption.
    + split; [exact Hc|]. apply Forall_app. split; [exact Hp | by constructor].
Qed.

Lemma chunk_paragraphs_good (paragraphs : list string) src md :
  Forall (fun p => Str.truthy p = true) paragraphs ->
  Forall (good_chunk tokenizer md)
    (chunk_paragraphs chunk_size chunk_overlap tokenizer paragraphs src md).
Proof.
  intros Hps. unfold chunk_paragraphs.
  set (step := paragraph_step chunk_size chunk_overlap tokenizer src md).
  assert (Hinv : forall ps a,
             Forall (fun p => Str.truthy p = true) ps ->
             Forall (good_chunk tokenizer md) (chunks a) /\
               Forall (fun p => Str.truthy p = true) (current_chunk a) ->
             Forall (good_chunk tokenizer md) (chunks (fold_left step ps a)) /\
               Forall (fun p => Str.truthy p = true)
                 (current_chunk (fold_left step ps a))).
  { induction ps as [|p ps IH]; intros a Hpp Ha; simpl; [exact Ha|].
    inversion Hpp; subst. apply IH; [assumption|].
    by apply paragraph_step_good. }
  destruct (Hinv _ {| chunks := []; current_chunk := []; current_tokens := 0 |} Hps)
    as [Hc Hp]; [split; constructor|].
  destruct (nonempty _) eqn:Hne; [|exact Hc].
  apply Forall_app. split; [exact Hc|]. constructor; [|constructor].
  apply create_chunk_good; [by apply nonempty_true | exact Hp].
Qed.

Lemma chunk_text_good text src md :
  Forall (good_chunk tokenizer (default ∅ md))
    (chunk_text chunk_size chunk_overlap tokenizer text src md).
Proof.
  unfold chunk_text. destruct (_ || _); [constructor|].
  apply chunk_paragraphs_good.
  eapply List.Forall_impl; [|apply paragraphs_have_text]. simpl. tauto.
Qed.

(** *** At least one chunk for a text that is not blank *)

Lemma fold_left_last {A B : Type} (f : A -> B -> A) (l : list B) (a : A) :
  l <> [] -> exists a' b, In b l /\ fold_left f l a = f a' b.
Proof.
  intros Hl. destruct (exists_last Hl) as (l' & b & ->).
  exists (fold_left f l' a), b. rewrite fold_left_app. split; [|reflexivity].
  apply in_or_app. right. by left.
Qed.

Lemma sentence_step_current src start md a sentence :
  current_chunk (sentence_step chunk_size tokenizer src start md a sentence) <> [].
Proof.
  unfold sentence_step. destruct (_ >? _); simpl; [discriminate|].
  intros H. by apply app_eq_nil in H as [_ ?].
Qed.

Lemma split_large_paragraph_nonempty para src start md :
  has_text (Str.chars para) ->
  _split_large_paragraph chunk_size tokenizer para src start md <> [].
Proof.
  intros Ht. unfold _split_large_paragraph.
  destruct (fold_left_last (sentence_step chunk_size tokenizer src start md)
              (_split_into_sentences para)
              {| chunks := []; current_chunk := []; current_tokens := 0 |}
              (sentences_nonempty para Ht)) as (a' & b & _ & ->).
  pose proof (sentence_step_current src start md a' b) as Hc.
  destruct (current_chunk _) eqn:E; [congruence|]. simpl.
  intros H. by apply app_eq_nil in H as [_ ?].
Qed.

Lemma paragraph_step_progress src md a para :
  has_text (Str.chars para) ->
  chunks (paragraph_step chunk_size chunk_overlap tokenizer src md a para) <> [] \/
  current_chunk (paragraph_step chunk_size chunk_overlap tokenizer src md a para) <> [].
Proof.
  intros Ht. unfold paragraph_step.
  destruct (count_tokens tokenizer para >? chunk_size).
  - left. simpl. set (a1 := if nonempty (current_chunk a) then _ else a).
    destruct (append_reindexed_app
                (_split_large_paragraph chunk_size tokenizer para src
                   (len (chunks a1)) md) (chunks a1)) as (scs' & -> & Hcs & _).
    pose proof (split_large_paragraph_nonempty para src (len (chunks a1)) md Ht) as Hne.
    intros H. apply app_eq_nil in H as [_ ->].
    destruct (_split_large_paragraph _ _ _ _ _ _); [congruence | discriminate].
  - right. destruct (_ >? _); simpl.
    + destruct (Str.truthy _); discriminate.
    + intros H. by apply app_eq_nil in H as [_ ?].
Qed.

Lemma chunk_paragraphs_nonempty (paragraphs : list string) src md :
  paragraphs <> [] ->
  Forall (fun p => has_text (Str.chars p)) paragraphs ->
  chunk_paragraphs chunk_size chunk_overlap tokenizer paragraphs src md <> [].
Proof.
  intros Hne Hps. unfold chunk_paragraphs.
  destruct (fold_left_last (paragraph_step chunk_size chunk_overlap tokenizer src md)
              paragraphs {| chunks := []; current_chunk := []; current_tokens := 0 |}
              Hne) as (a' & b & Hb & ->).
  rewrite List.Forall_forall in Hps.
  destruct (paragraph_step_progress src md a' b (Hps b Hb)) as [H|H].
  - destruct (nonempty _); [|exact H].
    intros E. by apply app_eq_nil in E as [? _].
  - destruct (current_chunk _) eqn:E; [congruence|]. simpl.
    intros E'. by apply app_eq_nil in E' as [_ ?].
Qed.

(** X1.  [chunk_text] returns no chunk exactly for a text without a
    visible character (the empty text, or white space only). *)
Theorem chunk_text_empty_iff_blank (text src : string)
    (md : option (gmap string meta_value)) :
  chunk_text chunk_size chunk_overlap tokenizer text src md = []
  <-> ~ has_text (Str.chars text).
Proof.
  unfold chunk_text.
  destruct (negb (Str.truthy text) || negb (Str.truthy (Str.strip text))) eqn:Hb.
  - split; [|reflexivity]. intros _ Ht.
    apply not_blank_has_text in Ht. congruence.
  - apply not_blank_has_text in Hb. split; [|tauto]. intros H. exfalso.
    revert H. apply chunk_paragraphs_nonempty; [by apply paragraphs_nonempty|].
    eapply List.Forall_impl; [|apply paragraphs_have_text]. simpl. tauto.
Qed.

(** X2.  No chunk of [chunk_text] has an empty text. *)
Theorem chunks_have_text (text src : string)
    (md : option (gmap string meta_value)) :
  Forall (fun c => content c <> ""%string)
    (chunk_text chunk_size chunk_overlap tokenizer text src md).
Proof.
  eapply List.Forall_impl; [|apply chunk_text_good].
  simpl. intros c [Hc _]. by apply truthy_has_chars.
Qed.

(** X3.  Every chunk of [chunk_text] carries the caller's metadata
    with [token_count] set to the token count of the chunk's own
    text; every other key is the caller's. *)
Theorem chunks_carry_token_count (text src : string)
    (md : option (gmap string meta_value)) :
  Forall (fun c =>
            metadata c !! "token_count"
              = Some (MInt (count_tokens tokenizer (content c))) /\
            forall key : string, key <> "token_count" ->
              metadata c !! key = default ∅ md !! key)
    (chunk_text chunk_size chunk_overlap tokenizer text src md).
Proof.
  eapply List.Forall_impl; [|apply chunk_text_good].
  simpl. intros c [_ ->]. split; [apply lookup_insert_eq|].
  intros key Hk. by apply lookup_insert_ne.
Qed.

(** *** No paragraph that fits is lost *)

Lemma string_app_nil_r (p : string) : (p ++ "")%string = p.
Proof.
  induction p as [|c p IH]; [reflexivity|].
  change (String c (p ++ "") = String c p)%string. by rewrite IH.
Qed.

Lemma contains_refl (p : string) : contains p p.
Proof.
  exists ""%string, ""%string.
  change (p = p ++ "")%string. by rewrite string_app_nil_r.
Qed.

Lemma join_contains (parts : list string) (p : string) :
  In p parts -> contains (Str.join " " parts) p.
Proof.
  induction parts as [|a parts IH]; [intros []|].
  destruct parts as [|b parts].
  - intros [->|[]]. apply contains_refl.
  - change (Str.join " " (a :: b :: parts))
      with (a ++ " " ++ Str.join " " (b :: parts))%string.
    intros [->|Hin].
    + exists ""%string, (" " ++ Str.join " " (b :: parts))%string. reflexivity.
    + destruct (IH Hin) as (pre & post & ->).
      exists (a ++ " " ++ pre)%string, post.
      by rewrite !string_app_assoc.
Qed.

Lemma covered_flush src i md a done p :
  covered chunk_size tokenizer a done -> In p done -> count_tokens tokenizer p <= chunk_size ->
  Exists (fun c => contains (content c) p)
    (if nonempty (current_chunk a)
     then chunks a ++ [_create_chunk tokenizer (current_chunk a) src i md]
     else chunks a).
Proof.
  intros Hcov Hin Hfit. destruct (Hcov p Hin Hfit) as [H|H].
  - destruct (nonempty _); [|exact H]. apply Exists_app. by left.
  - destruct (nonempty (current_chunk a)) eqn:E.
    + apply Exists_app. right. constructor.
      unfold _create_chunk, content. by apply join_contains.
    + apply nonempty_false in E. rewrite E in H. inversion H.
Qed.

Lemma paragraph_step_covered src md a done para :
  covered chunk_size tokenizer a done ->
  covered chunk_size tokenizer (paragraph_step chunk_size chunk_overlap tokenizer src md a para)
    (done ++ [para]).
Proof.
  intros Hcov p Hin Hfit. unfold paragraph_step.
  destruct (Z.gtb_spec (count_tokens tokenizer para) chunk_size) as [Hbig|Hsmall].
  - left. simpl.
    assert (Hp : In p done).
    { apply in_app_or in Hin as [H|[<-|[]]]; [exact H | lia]. }
    pose proof (covered_flush src (len (chunks a)) md a done p Hcov Hp Hfit) as Hfl.
    set (a1 := if nonempty (current_chunk a) then _ else a).
    assert (H1 : Exists (fun c => contains (content c) p) (chunks a1)).
    { unfold a1. destruct (nonempty (current_chunk a)); exact Hfl. }
    destruct (append_reindexed_app
                (_split_large_paragraph chunk_size tokenizer para src
                   (len (chunks a1)) md) (chunks a1)) as (scs' & -> & _).
    apply Exists_app. by left.
  - destruct (_ >? _); simpl.
    + apply in_app_or in Hin as [Hp|[<-|[]]].
      * left. by apply (covered_flush src (len (chunks a)) md a done).
      * right. destruct (Str.truthy _); simpl; auto.
    + apply in_app_or in Hin as [Hp|[<-|[]]].
      * destruct (Hcov p Hp Hfit) as [H|H]; [by left|].
        right. apply in_or_app. by left.
      * right. apply in_or_app. right. by left.
Qed.

Lemma fold_paragraphs_covered src md (ps : list string) :
  forall a done, covered chunk_size tokenizer a done ->
  covered chunk_size tokenizer (fold_left (paragraph_step chunk_size chunk_overlap tokenizer src md) ps a)
    (done ++ ps).
Proof.
  induction ps as [|p ps IH]; intros a done Hcov; simpl.
  - by rewrite app_nil_r.
  - replace (done ++ p :: ps) with ((done ++ [p]) ++ ps)
      by (by rewrite <- app_assoc).
    apply IH. by apply paragraph_step_covered.
Qed.

Lemma chunk_paragraphs_covers (paragraphs : list string) src md (p : string) :
  In p paragraphs -> count_tokens tokenizer p <= chunk_size ->
  Exists (fun c => contains (content c) p)
    (chunk_paragraphs chunk_size chunk_overlap tokenizer paragraphs src md).
Proof.
  intros Hin Hfit. unfold chunk_paragraphs.
  pose proof (fold_paragraphs_covered src md paragraphs
                {| chunks := []; current_chunk := []; current_tokens := 0 |} [])
    as Hcov.
  simpl in Hcov.
  apply (covered_flush src _ md _ paragraphs p); [|exact Hin | exact Hfit].
  apply Hcov. intros q [].
Qed.

(** X4.  Every paragraph of the text that fits the chunk size is
    contained, unchanged, in the text of some chunk. *)
Theorem fitting_paragraphs_are_kept (text src : string)
    (md : option (gmap string meta_value)) (p : string) :
  In p (_split_into_paragraphs text) ->
  count_tokens tokenizer p <= chunk_size ->
  Exists (fun c => contains (content c) p)
    (chunk_text chunk_size chunk_overlap tokenizer text src md).
Proof.
  intros Hin Hfit. unfold chunk_text.
  pose proof (paragraph_from_text text p Hin) as Ht.
  apply not_blank_has_text in Ht. rewrite Ht.
  by apply chunk_paragraphs_covers.
Qed.

(** *** Sentence chunks respect the chunk size *)

Lemma parts_tokens_app (a b : list string) :
  parts_tokens tokenizer (a ++ b)
    = parts_tokens tokenizer a + parts_tokens tokenizer b.
Proof. induction a as [|p a IH]; simpl; lia. Qed.

Lemma count_tokens_nonneg (p : string) : 0 <= count_tokens tokenizer p.
Proof.
  unfold count_tokens. destruct tokenizer; [unfold len; lia|].
  unfold Str.len. apply Z.div_pos; lia.
Qed.

Lemma sentence_step_sized src start md (pool : list string) a sentence :
  In sentence pool ->
  sentence_invariant chunk_size tokenizer pool a ->
  sentence_invariant chunk_size tokenizer pool
    (sentence_step chunk_size tokenizer src start md a sentence).
Proof.
  intros Hs (Hc & Hincl & Htok & Hsize). unfold sentence_step.
  destruct (Z.gtb_spec (current_tokens a + count_tokens tokenizer sentence)
              chunk_size) as [Hgt|Hle].
  - split; [|split; [|split]]; simpl.
    + destruct (nonempty (current_chunk a)) eqn:Hne; [|exact Hc].
      apply Forall_app. split; [exact Hc|]. constructor; [|constructor].
      exists (current_chunk a). apply nonempty_true in Hne.
      split; [exact Hne|]. split; [exact Hincl|]. split; [reflexivity|].
      destruct Hsize as [Hl|Hl]; [left | by right].
      destruct (current_chunk a) as [|x [|y l]]; simpl in *; [congruence | lia | lia].
    + intros x [<-|[]]. exact Hs.
    + lia.
    + left. lia.
  - split; [|split; [|split]]; simpl.
    + exact Hc.
    + intros x Hx. apply in_app_or in Hx as [Hx|[<-|[]]]; auto.
    + rewrite parts_tokens_app, Htok. simpl. lia.
    + right. rewrite parts_tokens_app. simpl. lia.
Qed.

(** X5.  Every chunk of [_split_large_paragraph] is the join of
    sentences of the paragraph whose token counts sum to at most
    [chunk_size], unless it is a single sentence. *)
Theorem sentence_chunks_fit (para src : string) (start : Z)
    (md : gmap string meta_value) :
  Forall (fits_or_single chunk_size tokenizer (_split_into_sentences para))
    (_split_large_paragraph chunk_size tokenizer para src start md).
Proof.
  unfold _split_large_paragraph.
  set (pool := _split_into_sentences para).
  set (step := sentence_step chunk_size tokenizer src start md).
  assert (Hinv : forall ss a, incl ss pool ->
             sentence_invariant chunk_size tokenizer pool a ->
             sentence_invariant chunk_size tokenizer pool (fold_left step ss a)).
  { induction ss as [|x ss IH]; intros a Hss Ha; simpl; [exact Ha|].
    apply IH; [intros y Hy; apply Hss; by right|].
    apply sentence_step_sized; [apply Hss; by left | exact Ha]. }
  destruct (Hinv pool {| chunks := []; current_chunk := []; current_tokens := 0 |})
    as (Hc & Hincl & Htok & Hsize).
  { intros x Hx. exact Hx. }
  { split; [constructor|]. split; [intros x []|]. split; [reflexivity|].
    left. simpl. lia. }
  destruct (nonempty _) eqn:Hne; [|exact Hc].
  apply Forall_app. split; [exact Hc|]. constructor; [|constructor].
  eexists. apply nonempty_true in Hne.
  split; [exact Hne|]. split; [exact Hincl|]. split; [reflexivity|].
  destruct Hsize as [Hl|Hl]; [left | by right].
  destruct (current_chunk _) as [|x [|y l]]; simpl in *; [congruence | lia | lia].
Qed.

End WithChunker.

(** *** Overlap between consecutive chunks *)

Lemma chained_ext (ov ov' : string -> string) (cs : list TextChunk) :
  (forall s, ov s = ov' s) -> chained ov cs -> chained ov' cs.
Proof.
  intros Hext. induction cs as [|c cs IH]; [auto|].
  destruct cs as [|c' cs]; [auto|].
  intros [H1 H2]. split; [by rewrite <- Hext | by apply IH].
Qed.

(** X6.  Under the heuristic counter with [chunk_overlap >= 1], when no
    paragraph exceeds [chunk_size], every chunk after the first begins
    with the last [4 * chunk_overlap] characters of the chunk before
    it (with that whole chunk when it is not longer). *)
Theorem consecutive_chunks_overlap (chunk_size chunk_overlap : Z)
    (text src : string) (md : option (gmap string meta_value)) :
  1 <= chunk_overlap ->
  Forall (fun p => count_tokens None p <= chunk_size)
    (_split_into_paragraphs text) ->
  chained
    (fun s => if Str.len s >? chunk_overlap * 4
              then last_chars (Z.to_nat (chunk_overlap * 4)) s
              else s)
    (chunk_text chunk_size chunk_overlap None text src md).
Proof.
  intros Hco Hfit. unfold chunk_text. destruct (_ || _); [exact I|].
  eapply chained_ext; [|by apply chunk_paragraphs_chained].
  intros s. by apply overlap_of_positive.
Qed.

Lemma consecutive_chunks_overlap_witness :
  1 <= 1 /\
  Forall (fun p => count_tokens None p <= 2)
    (_split_into_paragraphs two_paragraphs) /\
  chained
    (fun s => if Str.len s >? 1 * 4 then last_chars (Z.to_nat (1 * 4)) s else s)
    (chunk_text 2 1 None two_paragraphs "doc.txt" None).
Proof.
  assert (H : Forall (fun p => count_tokens None p <= 2)
                (_split_into_paragraphs two_paragraphs)).
  { repeat constructor; vm_compute; discriminate. }
  split; [lia|]. split; [exact H|].
  apply (consecutive_chunks_overlap 2 1 two_paragraphs "doc.txt" None); [lia | exact H].
Defined.

Lemma fitting_paragraphs_are_kept_witness :
  In "bbbbbbbb"%string (_split_into_paragraphs two_paragraphs) /\
  count_tokens None "bbbbbbbb" <= 2 /\
  Exists (fun c => contains (content c) "bbbbbbbb")
    (chunk_text 2 1 None two_paragraphs "doc.txt" None).
Proof.
  assert (H1 : In "bbbbbbbb"%string (_split_into_paragraphs two_paragraphs))
    by (right; left; reflexivity).
  assert (H2 : count_tokens None "bbbbbbbb" <= 2) by (vm_compute; discriminate).
  split; [exact H1|]. split; [exact H2|].
  exact (fitting_paragraphs_are_kept 2 1 None two_paragraphs "doc.txt" None
           "bbbbbbbb" H1 H2).
Defined.

(** *** [strip] is idempotent *)

Lemma lstrip_split (l : list ascii) :
  exists sp, l = sp ++ Str.lstrip_chars l /\ Forall (fun c => Str.is_space c = true) sp.
Proof.
  induction l as [|c l (sp & Hl & Hsp)]; [by exists []|]. simpl.
  destruct (Str.is_space c) eqn:Hc.
  - exists (c :: sp). simpl. split; [by f_equal | by constructor].
  - by exists [].
Qed.

Lemma lstrip_head (l : list ascii) :
  match Str.lstrip_chars l with
  | c :: _ => Str.is_space c = false
  | [] => True
  end.
Proof.
  induction l as [|c l IH]; simpl; [exact I|].
  destruct (Str.is_space c) eqn:Hc; [exact IH | exact Hc].
Qed.

Lemma lstrip_fixed (l : list ascii) :
  match l with c :: _ => Str.is_space c = false | [] => True end ->
  Str.lstrip_chars l = l.
Proof. destruct l as [|c l]; simpl; [auto|]. by intros ->. Qed.

Lemma strip_chars_idempotent (l : list ascii) :
  Str.strip_chars (Str.strip_chars l) = Str.strip_chars l.
Proof.
  unfold Str.strip_chars.
  set (a := Str.lstrip_chars l).
  set (b := Str.lstrip_chars (rev a)).
  assert (Hb : match b with c :: _ => Str.is_space c = false | [] => True end)
    by apply lstrip_head.
  assert (Ha : match a with c :: _ => Str.is_space c = false | [] => True end)
    by apply lstrip_head.
  assert (Hrb : match rev b with c :: _ => Str.is_space c = false | [] => True end).
  { destruct (lstrip_split (rev a)) as (sp & Hsplit & _). fold b in Hsplit.
    apply (f_equal (@rev ascii)) in Hsplit.
    rewrite rev_involutive, rev_app_distr in Hsplit.
    destruct (rev b) as [|c r]; [exact I|].
    rewrite Hsplit in Ha. exact Ha. }
  rewrite (lstrip_fixed (rev b) Hrb), rev_involutive, (lstrip_fixed b Hb).
  reflexivity.
Qed.

Lemma strip_idempotent (s : string) : Str.strip (Str.strip s) = Str.strip s.
Proof.
  unfold Str.strip at 1. unfold Str.strip at 1.
  unfold Str.chars, Str.of_chars.
  rewrite list_ascii_of_string_of_list_ascii.
  unfold Str.strip, Str.chars, Str.of_chars.
  by rewrite strip_chars_idempotent.
Qed.

(** X7.  Every paragraph of [_split_into_paragraphs] and every sentence
    of [_split_into_sentences] is non-empty and already stripped: it
    has no white space at either end. *)
Theorem split_pieces_are_stripped (text : string) :
  Forall (fun p => p <> ""%string /\ Str.strip p = p)
    (_split_into_paragraphs text) /\
  Forall (fun p => p <> ""%string /\ Str.strip p = p)
    (_split_into_sentences text).
Proof.
  split; apply List.Forall_forall; intros p Hp;
    apply strip_nonblank_In in Hp as (Ht & _ & piece & _ & ->);
    (split; [by apply truthy_has_chars|]);
    rewrite strip_of_chars; by rewrite strip_chars_idempotent.
Qed.

End ChunkerMoreFacts.

Module VectorStoreMoreFacts.
Import Py VectorStore VectorStoreSpec VectorStoreFacts VectorStoreMoreSpec.

(** *** [add] *)

Lemma add_fields (st st' : FAISSVectorStore) (embeddings : list vec)
    (docs : list document) :
  add st embeddings docs = Return st' ->
  dimension st' = dimension st /\ store_path st' = store_path st /\
  d (index st') = d (index st).
Proof.
  unfold add. destruct (negb _); [discriminate|].
  destruct (len embeddings =? 0); [by intros [= <-]|].
  unfold index_add. destruct (has_dimension _ _); [|discriminate].
  simpl. by intros [= <-].
Qed.

(** X8.  A successful [add] appends: the entries already stored stay
    where they are, the new vectors (normalized) and payloads follow
    in the order given, the size grows by the number of payloads, and
    vectors and payloads still match 1:1. *)
Theorem add_appends (st st' : FAISSVectorStore) (embeddings : list vec)
    (docs : list document) :
  consistent st ->
  add st embeddings docs = Return st' ->
  xb (index st') = xb (index st) ++ _normalize embeddings /\
  documents st' = documents st ++ docs /\
  size st' = size st + len docs /\
  consistent st' /\
  dimension st' = dimension st.
Proof.
  intros Hc Hadd.
  pose proof (add_consistent st st' embeddings docs Hc Hadd) as Hc'.
  pose proof (add_fields st st' embeddings docs Hadd) as (Hd & _ & _).
  apply add_vectors in Hadd as (Hxb & Hdocs & Hlen).
  repeat split; try assumption.
  unfold size, len. rewrite Hdocs, length_app. lia.
Qed.

Lemma add_appends_witness :
  consistent (init 4 "data/test_store") /\
  add (init 4 "data/test_store") animal_vectors [doc_cats; doc_dogs; doc_birds]
    = Return animals /\
  size animals = size (init 4 "data/test_store") + len [doc_cats; doc_dogs; doc_birds].
Proof.
  split; [exact (init_consistent 4 "data/test_store")|].
  split; [exact add_animals|].
  exact (proj1 (proj2 (proj2
    (add_appends (init 4 "data/test_store") animals animal_vectors
       [doc_cats; doc_dogs; doc_birds]
       (init_consistent 4 "data/test_store") add_animals)))).
Defined.

(** X9.  [add] raises [ValueError] exactly when the numbers of vectors
    and payloads differ; with no vector and no payload it returns the
    store unchanged; its only other failure is the engine's rejection
    of vectors of another dimension. *)
Theorem add_failures (st : FAISSVectorStore) (embeddings : list vec)
    (docs : list document) :
  (len embeddings <> len docs <->
   add st embeddings docs
     = Raise (ValueError "Number of embeddings must match number of documents")) /\
  (embeddings = [] -> docs = [] -> add st embeddings docs = Return st) /\
  (forall e, add st embeddings docs = Raise e ->
     len embeddings <> len docs \/
     (e = AssertionError /\
      has_dimension (d (index st)) (_normalize embeddings) = false)).
Proof.
  unfold add. destruct (Z.eqb_spec (len embeddings) (len docs)) as [Heq|Hne]; simpl.
  - split; [|split].
    + split; [intros H; congruence|].
      destruct (len embeddings =? 0); [discriminate|].
      unfold index_add. destruct (has_dimension _ _); discriminate.
    + by intros -> ->.
    + intros e. destruct (len embeddings =? 0); [discriminate|].
      unfold index_add. destruct (has_dimension _ _); simpl; [discriminate|].
      intros [= <-]. by right.
  - split; [|split].
    + tauto.
    + intros -> ->. by destruct Hne.
    + intros e _. by left.
Qed.

Lemma add_all_consistent (calls : list (list vec * list document)) :
  forall st st', consistent st -> add_all st calls = Return st' ->
  consistent st' /\ documents st' = documents st ++ all_added calls.
Proof.
  induction calls as [|[e docs] calls IH]; intros st st' Hc; simpl.
  - intros [= <-]. by rewrite app_nil_r.
  - destruct (add st e docs) as [st1|] eqn:Hadd; [|discriminate]. simpl.
    intros Hrest.
    pose proof (add_consistent _ _ _ _ Hc Hadd) as Hc1.
    apply add_vectors in Hadd as (_ & Hdocs & _).
    destruct (IH st1 st' Hc1 Hrest) as [Hc' Hd'].
    split; [exact Hc'|]. by rewrite Hd', Hdocs, <- app_assoc.
Qed.

(** X10.  After any sequence of successful [add] calls on a new store,
    the payload list is the concatenation of the payloads added, in
    order, and the index holds exactly as many vectors. *)
Theorem adds_accumulate (dim : Z) (path : string)
    (calls : list (list vec * list document)) (st : FAISSVectorStore) :
  add_all (init dim path) calls = Return st ->
  documents st = all_added calls /\
  ntotal (index st) = size st /\
  size st = len (all_added calls).
Proof.
  intros Hadd.
  destruct (add_all_consistent calls _ _ (init_consistent dim path) Hadd)
    as [Hc Hdocs].
  simpl in Hdocs. split; [exact Hdocs|]. split.
  - unfold ntotal, size, len. by rewrite Hc.
  - unfold size. by rewrite Hdocs.
Qed.

Lemma adds_accumulate_witness :
  add_all (init 4 "data/test_store")
    [(animal_vectors, [doc_cats; doc_dogs; doc_birds])] = Return animals /\
  documents animals = [doc_cats; doc_dogs; doc_birds] /\
  ntotal (index animals) = size animals.
Proof.
  assert (H : add_all (init 4 "data/test_store")
                [(animal_vectors, [doc_cats; doc_dogs; doc_birds])] = Return animals).
  { cbn [add_all]. rewrite add_animals. reflexivity. }
  split; [exact H|].
  destruct (adds_accumulate 4 "data/test_store" _ animals H) as (H1 & H2 & _).
  split; [exact H1 | exact H2].
Defined.

(** *** Scores *)

Lemma dot_abs_le_norms (a : vec) :
  forall b, (Rabs (dot a b) <= l2_norm a * l2_norm b)%R.
Proof.
  induction a as [|x a IH]; intros [|y b]; simpl;
    try (rewrite Rabs_R0; apply Rmult_le_pos; apply sqrt_pos).
  eapply Rle_trans; [apply Rabs_triang|].
  rewrite Rabs_mult.
  eapply Rle_trans; [apply Rplus_le_compat_l, IH|].
  eapply Rle_trans; [apply sqrt_cauchy|].
  unfold l2_norm. simpl.
  rewrite <- !Rsqr_abs, !Rsqr_sqrt by apply dot_self_nonneg.
  unfold Rsqr. apply Rle_refl.
Qed.

Lemma l2_norm_nonneg (v : vec) : (0 <= l2_norm v)%R.
Proof. apply sqrt_pos. Qed.

Lemma normalize_row_le_one (v : vec) : (l2_norm (normalize_row v) <= 1)%R.
Proof.
  destruct (Rlt_dec f32_max (dot v v)) as [Hover|Hfin].
  { rewrite normalize_row_overflow, l2_norm_zero_row by exact Hover. lra. }
  rewrite l2_norm_normalize_row by lra.
  pose proof (norm_divisor_pos v) as Hpos.
  pose proof (Rmax_l (l2_norm v) norm_floor) as Hle.
  apply Rmult_le_reg_r with (Rmax (l2_norm v) norm_floor); [exact Hpos|].
  unfold Rdiv. rewrite Rmult_assoc, Rinv_l by lra. lra.
Qed.

Lemma init_norms_at_most_one (dim : Z) (path : string) :
  norms_at_most_one (init dim path).
Proof. constructor. Qed.

Lemma add_norms_at_most_one (st st' : FAISSVectorStore) (embeddings : list vec)
    (docs : list document) :
  norms_at_most_one st -> add st embeddings docs = Return st' ->
  norms_at_most_one st'.
Proof.
  unfold norms_at_most_one. intros Hn Hadd.
  apply add_vectors in Hadd as (Hxb & _ & _). rewrite Hxb.
  apply Forall_app. split; [exact Hn|].
  unfold _normalize. apply List.Forall_forall. intros v Hin.
  apply in_map_iff in Hin as (w & <- & _). apply normalize_row_le_one.
Qed.

Lemma add_all_norms_at_most_one (calls : list (list vec * list document)) :
  forall st st', norms_at_most_one st -> add_all st calls = Return st' ->
  norms_at_most_one st'.
Proof.
  induction calls as [|[e docs] calls IH]; intros st st' Hn; simpl.
  - by intros [= <-].
  - destruct (add st e docs) as [st1|] eqn:Hadd; [|discriminate]. simpl.
    apply IH. eapply add_norms_at_most_one; eassumption.
Qed.

Lemma search_scores_bounded (st : FAISSVectorStore) (q : vec) (k : Z)
    (res : list (document * R)) :
  norms_at_most_one st -> search st q k = Return res ->
  Forall (fun h => (-1 <= snd h <= 1)%R) res.
Proof.
  intros Hn Hs.
  destruct (search_labelled st q k res Hs) as (lab & <- & Hhit & _).
  apply List.Forall_forall. intros h Hin.
  apply in_map_iff in Hin as (x & <- & Hx).
  rewrite List.Forall_forall in Hhit.
  destruct (Hhit x Hx) as (_ & v & Hv & ->).
  apply nth_error_In in Hv.
  unfold norms_at_most_one in Hn. rewrite List.Forall_forall in Hn.
  pose proof (Hn v Hv) as Hv1.
  pose proof (normalize_row_le_one q) as Hq1.
  pose proof (dot_abs_le_norms (normalize_row q) v) as Hcs.
  pose proof (l2_norm_nonneg v) as Hv0.
  pose proof (l2_norm_nonneg (normalize_row q)) as Hq0.
  assert (Hb : (Rabs (dot (normalize_row q) v) <= 1)%R) by nra.
  unfold Rabs in Hb. destruct (Rcase_abs _) in Hb; lra.
Qed.

(** X11.  Every score returned by [search] on a store filled by [add]
    lies between -1 and 1, for every input vector and every query:
    also for vectors below the normalization floor or beyond the
    float32 range, which are stored shorter than unit length.
    (Rounding aside.) *)
Theorem scores_between_minus_one_and_one (dim : Z) (path : string)
    (calls : list (list vec * list document)) (st : FAISSVectorStore)
    (q : vec) (k : Z) (res : list (document * R)) :
  add_all (init dim path) calls = Return st ->
  search st q k = Return res ->
  Forall (fun h => (-1 <= snd h <= 1)%R) res.
Proof.
  intros Hadd Hs. eapply search_scores_bounded; [|exact Hs].
  eapply add_all_norms_at_most_one; [|exact Hadd].
  apply init_norms_at_most_one.
Qed.

Lemma animals_added :
  add_all (init 4 "data/test_store")
    [(animal_vectors, [doc_cats; doc_dogs; doc_birds])] = Return animals.
Proof. cbn [add_all]. rewrite add_animals. reflexivity. Qed.

Lemma scores_between_minus_one_and_one_witness :
  let q' := normalize_row cat_query in
  Forall (fun h : document * R => (-1 <= snd h <= 1)%R)
    [(doc_cats, dot q' [1; 0; 0; 0]%R); (doc_dogs, dot q' [0; 1; 0; 0]%R)].
Proof.
  exact (scores_between_minus_one_and_one 4 "data/test_store" _ animals
           cat_query 2 _ animals_added cat_query_search).
Defined.

(** *** Scaling the query *)






(** *** What [search] returns *)

Lemma sorted_labels_NoDup (st : FAISSVectorStore) (q : vec)
    (lab : list (nat * (document * R))) :
  StronglySorted ranked_before lab ->
  Forall (fun x => hit_of st q (fst x) (snd x)) lab ->
  List.NoDup (map fst lab).
Proof.
  induction 1 as [|a l Hs IH Ha]; intros Hhit; simpl; [constructor|].
  inversion Hhit as [|? ? Hha Hhl]; subst.
  constructor; [|auto].
  intros Hin. apply in_map_iff in Hin as (b & Hfst & Hb).
  rewrite List.Forall_forall in Ha, Hhl.
  pose proof (Ha b Hb) as Hrank. pose proof (Hhl b Hb) as Hhb.
  destruct Hha as (_ & v & Hv & Hsa).
  destruct Hhb as (_ & w & Hw & Hsb).
  rewrite Hfst in Hw. rewrite Hv in Hw. injection Hw as <-.
  unfold ranked_before in Hrank. rewrite Hsa, Hsb, Hfst in Hrank.
  destruct Hrank as [H|[_ H]]; [lra | lia].
Qed.

Lemma collect_results_length_le (docs : list document) (hits : list (R * Z)) :
  (length (collect_results docs hits) <= length hits)%nat.
Proof.
  induction hits as [|[s l] hits IH]; simpl; [lia|].
  destruct ((l >=? 0) && (l <? len docs)); [|lia].
  destruct (nth_error docs (Z.to_nat l)); simpl; lia.
Qed.

Lemma labelled_Forall2 (st : FAISSVectorStore) (q : vec)
    (lab : list (nat * (document * R))) :
  Forall (fun x => hit_of st q (fst x) (snd x)) lab ->
  Forall2 (hit_of st q) (map fst lab) (map snd lab).
Proof. induction 1; simpl; constructor; auto. Qed.

Lemma search_length_le (st : FAISSVectorStore) (q : vec) (k : Z)
    (res : list (document * R)) :
  search st q k = Return res -> len res <= Z.max 0 k.
Proof.
  intros Hs.
  destruct (Z.eq_dec (ntotal (index st)) 0) as [Hn|Hn].
  { rewrite search_empty in Hs by exact Hn. injection Hs as <-.
    unfold len. simpl. lia. }
  rewrite search_nonempty in Hs by exact Hn.
  destruct ((len q =? d (index st)) && (0 <? Z.min k (ntotal (index st))))
    eqn:Hok; [|discriminate].
  injection Hs as <-.
  apply andb_true_iff in Hok as [_ Hk]. apply Z.ltb_lt in Hk.
  unfold len.
  pose proof (collect_results_length_le (documents st)
    (firstn (Z.to_nat (Z.min k (ntotal (index st))))
       (rank (label_scores (normalize_row q) (xb (index st)))))) as Hle.
  rewrite length_firstn in Hle. lia.
Qed.


(** X13.  The results of [search] are distinct stored entries: each
    result is the payload and score of one position of the store, no
    position is returned twice, and there are at most [k] results and
    at most as many as there are payloads. *)
Theorem search_results_distinct (st : FAISSVectorStore) (q : vec) (k : Z)
    (res : list (document * R)) :
  search st q k = Return res ->
  (exists labels : list nat,
      Forall2 (hit_of st q) labels res /\ List.NoDup labels) /\
  len res <= Z.max 0 k /\
  len res <= size st.
Proof.
  intros Hs.
  destruct (search_labelled st q k res Hs) as (lab & Hres & Hhit & Hsort).
  pose proof (sorted_labels_NoDup st q lab Hsort Hhit) as Hnd.
  split; [|split].
  - exists (map fst lab). split; [|exact Hnd].
    rewrite <- Hres. by apply labelled_Forall2.
  - by eapply search_length_le.
  - assert (Hincl : incl (map fst lab) (seq 0 (length (documents st)))).
    { intros i Hi. apply in_map_iff in Hi as (x & <- & Hx).
      rewrite List.Forall_forall in Hhit. destruct (Hhit x Hx) as [Hdoc _].
      apply in_seq. split; [lia|]. simpl. apply nth_error_Some. congruence. }
    apply (NoDup_incl_length Hnd) in Hincl.
    rewrite length_map, length_seq in Hincl.
    unfold size, len. rewrite <- Hres, length_map. lia.
Qed.

Lemma search_results_distinct_witness :
  (exists labels : list nat,
      Forall2 (hit_of animals cat_query) labels
        [(doc_cats, dot (normalize_row cat_query) [1; 0; 0; 0]%R);
         (doc_dogs, dot (normalize_row cat_query) [0; 1; 0; 0]%R)] /\
      List.NoDup labels).
Proof.
  exact (proj1 (search_results_distinct animals cat_query 2 _ cat_query_search)).
Defined.

Lemma labels_nth (q : vec) (vectors : list vec) :
  forall (s i : nat) (v : vec),
    nth_error vectors i = Some v ->
    In (dot q v, Z.of_nat (s + i))
       (combine (map (dot q) vectors) (map Z.of_nat (seq s (length vectors)))).
Proof.
  induction vectors as [|w vs IH]; intros s [|i] v; simpl; try discriminate.
  - intros [= ->]. left. by rewrite Nat.add_0_r.
  - intros Hv. right. replace (s + S i)%nat with (S s + i)%nat by lia. by apply IH.
Qed.

Lemma ranked_nth (q : vec) (vectors : list vec) (i : nat) (v : vec) :
  nth_error vectors i = Some v ->
  In (dot q v, Z.of_nat i) (rank (label_scores q vectors)).
Proof.
  intros Hv. eapply Permutation_in; [symmetry; apply rank_perm|].
  exact (labels_nth q vectors 0 i v Hv).
Qed.

Lemma sorted_app_rel {A : Type} (P : A -> A -> Prop) (l1 l2 : list A) :
  StronglySorted P (l1 ++ l2) ->
  forall a b, In a l1 -> In b l2 -> P a b.
Proof.
  induction l1 as [|x l1 IH]; simpl; intros Hs a b Ha Hb; [tauto|].
  inversion Hs as [|? ? Hs' Hx]; subst.
  destruct Ha as [<-|Ha]; [|eauto].
  rewrite List.Forall_forall in Hx. apply Hx, in_or_app. by right.
Qed.

Lemma collect_results_In (docs : list document) (hits : list (R * Z))
    (s : R) (i : nat) (doc : document) :
  In (s, Z.of_nat i) hits -> nth_error docs i = Some doc ->
  In (doc, s) (collect_results docs hits).
Proof.
  intros Hin Hdoc.
  assert (Hlt : (i < length docs)%nat) by (apply nth_error_Some; congruence).
  induction hits as [|[s' l] hits IH]; simpl in *; [tauto|].
  destruct Hin as [[= -> ->]|Hin].
  - replace ((Z.of_nat i >=? 0) && (Z.of_nat i <? len docs)) with true.
    2:{ symmetry. apply andb_true_iff. unfold len.
        split; [apply Z.geb_le | apply Z.ltb_lt]; lia. }
    rewrite Nat2Z.id, Hdoc. by left.
  - destruct ((l >=? 0) && (l <? len docs)); [|auto].
    destruct (nth_error docs (Z.to_nat l)); [right|]; auto.
Qed.

Lemma collect_results_from (docs : list document) (hits : list (R * Z))
    (h : document * R) :
  In h (collect_results docs hits) -> exists l, In (snd h, l) hits.
Proof.
  rewrite <- label_results_snd. intros Hin.
  apply in_map_iff in Hin as ([i [doc s]] & <- & Hx).
  apply label_results_In in Hx as [Hx _]. simpl. eauto.
Qed.

(** X14.  With the engine modelled as exact inner-product search,
    [search] on a store whose vectors and payloads match 1:1 returns
    the best entries: every stored entry is either among the results
    or scores no higher than every result. *)
Theorem search_returns_best (st : FAISSVectorStore) (q : vec) (k : Z)
    (res : list (document * R)) :
  consistent st ->
  search st q k = Return res ->
  forall (i : nat) (v : vec),
    nth_error (xb (index st)) i = Some v ->
    (exists doc, nth_error (documents st) i = Some doc /\
                 In (doc, dot (normalize_row q) v) res) \/
    Forall (fun h => (dot (normalize_row q) v <= snd h)%R) res.
Proof.
  intros Hc Hs i v Hv.
  destruct (Z.eq_dec (ntotal (index st)) 0) as [Hn|Hn].
  { rewrite search_empty in Hs by exact Hn. injection Hs as <-. right. constructor. }
  rewrite search_nonempty in Hs by exact Hn.
  destruct ((len q =? d (index st)) && (0 <? Z.min k (ntotal (index st))));
    [|discriminate].
  injection Hs as <-.
  set (m := Z.to_nat (Z.min k (ntotal (index st)))).
  set (ranked := rank (label_scores (normalize_row q) (xb (index st)))).
  pose proof (ranked_nth (normalize_row q) _ i v Hv) as Hin.
  fold ranked in Hin. rewrite <- (firstn_skipn m ranked) in Hin.
  apply in_app_or in Hin as [Hin|Hin].
  - left.
    assert (Hlt : (i < length (documents st))%nat).
    { rewrite <- Hc. apply nth_error_Some. congruence. }
    destruct (nth_error (documents st) i) as [doc|] eqn:Hdoc.
    + exists doc. split; [reflexivity|]. by eapply collect_results_In.
    + apply nth_error_None in Hdoc. lia.
  - right. apply List.Forall_forall. intros h Hh.
    apply collect_results_from in Hh as (l & Hl).
    pose proof (rank_sorted (label_scores (normalize_row q) (xb (index st)))) as Hsort.
    fold ranked in Hsort. rewrite <- (firstn_skipn m ranked) in Hsort.
    pose proof (sorted_app_rel _ _ _ Hsort _ _ Hl Hin) as Hout.
    unfold outranks in Hout. simpl in Hout. destruct Hout as [H|[H _]]; lra.
Qed.

Lemma search_returns_best_witness :
  let q' := normalize_row cat_query in
  (exists doc, nth_error [doc_cats; doc_dogs; doc_birds] 2 = Some doc /\
               In (doc, dot q' [0; 0; 1; 0]%R)
                  [(doc_cats, dot q' [1; 0; 0; 0]%R);
                   (doc_dogs, dot q' [0; 1; 0; 0]%R)]) \/
  Forall (fun h : document * R => (dot q' [0; 0; 1; 0] <= snd h)%R)
    [(doc_cats, dot q' [1; 0; 0; 0]%R); (doc_dogs, dot q' [0; 1; 0; 0]%R)].
Proof.
  exact (search_returns_best animals cat_query 2 _
           (eq_refl : consistent animals) cat_query_search
           2%nat [0; 0; 1; 0]%R eq_refl).
Defined.

(** *** [load] *)

(** X15.  [load] never changes the dimension or the directory of the
    store.  It reports success only when both artifacts exist and
    are readable, and the store then holds exactly their contents.
    When it reports failure the payload list is as before, but the
    index is either as before or already replaced by the one read
    from the index file. *)
Theorem load_outcomes (st st' : FAISSVectorStore) (name : string)
    (fs : gmap string artifact) (ok : bool) :
  load st name fs = (ok, st') ->
  dimension st' = dimension st /\ store_path st' = store_path st /\
  (ok = true ->
   exists idx docs,
     fs !! index_path st name = Some (FaissFile idx) /\
     fs !! docs_path st name = Some (PickleFile docs) /\
     index st' = idx /\ documents st' = docs) /\
  (ok = false ->
   documents st' = documents st /\
   (index st' = index st \/
    fs !! index_path st name = Some (FaissFile (index st')))).
Proof.
  unfold load.
  destruct (fs !! index_path st name) as [fi|] eqn:Hi;
    [|intros [= <- <-]; repeat split; [discriminate | by left]].
  destruct (fs !! docs_path st name) as [fd|] eqn:Hd;
    [|intros [= <- <-]; repeat split; [discriminate | by left]].
  destruct fi as [idx| |]; simpl;
    try (intros [= <- <-]; repeat split; [discriminate | by left]).
  destruct fd as [|docs|]; simpl; intros [= <- <-]; repeat split;
    try discriminate; try (by right).
  intros _. by exists idx, docs.
Qed.

Lemma load_outcomes_witness :
  let fs : gmap string artifact :=
    <["data/test_store/index.pkl" := OtherFile "truncated"]>
      (<["data/test_store/index.faiss" := FaissFile (index animals)]> ∅) in
  let st' := with_index (init 4 "data/test_store") (index animals) in
  load (init 4 "data/test_store") "index" fs = (false, st') /\
  documents st' = [] /\ ntotal (index st') = 3.
Proof.
  intros fs st'.
  assert (H : load (init 4 "data/test_store") "index" fs = (false, st'))
    by reflexivity.
  split; [exact H|].
  destruct (load_outcomes _ _ _ _ _ H) as (_ & _ & _ & Hf).
  destruct (Hf eq_refl) as [Hdocs _].
  split; [exact Hdocs | reflexivity].
Defined.

End VectorStoreMoreFacts.

Module RetrieverMoreFacts.
Import Py Retriever VectorStore VectorStoreSpec VectorStoreFacts.
Import VectorStoreMoreFacts RetrieverSpec RetrieverFacts RetrieverMoreSpec.

Lemma retrieve_total (r : RAGRetriever) (query : string) (k : option Z) :
  exists results, retrieve r query k = Return results.
Proof.
  unfold retrieve. destruct (blank query); [by eexists|].
  destruct (embedder r query) as [v|e]; simpl; [|by eexists].
  destruct (search (vector_store r) v (choose_k r k)); simpl; by eexists.
Qed.




Section WithFormat.
Variable format_2f : R -> string.

Lemma format_context_sentinel (results : list result) (max_tokens : Z) :
  format_context format_2f results max_tokens = no_information <-> results = [].
Proof.
  split; [|by intros ->].
  destruct results as [|x xs]; [reflexivity|]. intros H. exfalso.
  unfold format_context in H.
  destruct (included_parts_prefix format_2f (x :: xs) max_tokens)
    as (n & _ & Heq & _).
  rewrite Heq in H. unfold blocks in H.
  exact (join_pieces_not_sentinel format_2f n 1 (x :: xs) H).
Qed.

(** X17.  [retrieve_and_format] never raises, returns as sources
    exactly what [retrieve] returns, and its context is the
    no-information sentence exactly when there is no source: for a
    blank query, a failed embedding or search, or no result above
    the threshold. *)
Theorem retrieve_and_format_sentinel (r : RAGRetriever) (query : string)
    (k : option Z) (max_tokens : Z) :
  exists context sources,
    retrieve_and_format format_2f r query k max_tokens
      = Return (context, sources) /\
    retrieve r query k = Return sources /\
    context = format_context format_2f sources max_tokens /\
    (context = no_information <-> sources = []).
Proof.
  destruct (retrieve_total r query k) as [results Hr].
  exists (format_context format_2f results max_tokens), results.
  unfold retrieve_and_format. rewrite Hr. simpl.
  repeat split; try apply format_context_sentinel.
Qed.

(** *** Length of the context *)

Lemma string_length_append (a b : string) :
  String.length (a ++ b) = (String.length a + String.length b)%nat.
Proof.
  induction a as [|c a IH]; [reflexivity|].
  change (S (String.length (a ++ b)) = S (String.length a + String.length b)).
  by rewrite IH.
Qed.

Lemma len_append (a b : string) : Str.len (a ++ b) = Str.len a + Str.len b.
Proof. unfold Str.len. rewrite string_length_append. lia. Qed.

Lemma separator_len : Str.len separator = 5.
Proof. reflexivity. Qed.

Lemma join_len (parts : list string) :
  Str.len (Str.join separator parts)
    <= chars_of parts + 5 * len parts.
Proof.
  induction parts as [|p parts IH]; [unfold len; simpl; reflexivity|].
  destruct parts as [|p' parts].
  - change (Str.len p <= (Str.len p + 0) + 5 * 1). lia.
  - change (Str.join separator (p :: p' :: parts))
      with (p ++ separator ++ Str.join separator (p' :: parts))%string.
    rewrite !len_append, separator_len.
    change (chars_of (p :: p' :: parts))
      with (Str.len p + chars_of (p' :: parts)).
    unfold len in *. simpl length in *. lia.
Qed.

Lemma chars_of_cost (parts : list string) :
  chars_of parts <= 4 * cost parts + 3 * len parts.
Proof.
  induction parts as [|p parts IH]; [unfold len; simpl; lia|].
  simpl. unfold piece_tokens at 1.
  pose proof (Z.mod_pos_bound (Str.len p) 4 ltac:(lia)) as Hm.
  pose proof (Z.div_mod (Str.len p) 4 ltac:(lia)) as Hd.
  unfold len in *. simpl length. lia.
Qed.

(** X18.  The budget of [format_context] bounds the length of the
    context: with [max_tokens >= 0] the context has at most
    [4 * max_tokens + 8 * n] characters when [n] results are given
    (the rounding of each block's estimate and the separators are
    not counted against the budget). *)
Theorem format_context_length (results : list result) (max_tokens : Z) :
  results <> [] -> 0 <= max_tokens ->
  Str.len (format_context format_2f results max_tokens)
    <= 4 * max_tokens + 8 * len results.
Proof.
  intros Hne Hmax. unfold format_context.
  destruct results as [|x xs]; [congruence|].
  destruct (included_parts_prefix format_2f (x :: xs) max_tokens)
    as (n & Hn & Heq & Hsum & _).
  rewrite Heq. specialize (Hsum Hmax).
  set (parts := firstn n (blocks format_2f (x :: xs))) in *.
  pose proof (join_len parts) as H1.
  pose proof (chars_of_cost parts) as H2.
  assert (Hlen : len parts <= len (x :: xs)).
  { unfold len, parts. rewrite length_firstn. lia. }
  lia.
Qed.
End WithFormat.

Lemma format_context_length_witness :
  Str.len (format_context two_decimals [result_a; result_b] 100)
    <= 4 * 100 + 8 * len [result_a; result_b].
Proof.
  apply format_context_length; [discriminate | lia].
Defined.

End RetrieverMoreFacts.
